(** * MSDScript: expressions, printers, parser and evaluator

    A shallow embedding of [Expr.cpp] and [parse.cpp].

    - C++ [std::string] and the contents of a stream are [list ascii];
      [in.peek()] / [in.get()] return an [int] that is either a character
      or [EOF], modelled as [option ascii] with [None] for [EOF].
    - C++ [int] is a [Z] kept in the 32-bit two's complement range by
      [int_wrap].
    - [throw runtime_error(msg)] is the [Throw msg] result.
    - The recursive-descent parser and the evaluator recurse on a depth
      budget ([fuel]); [OutOfFuel] is not a behaviour of the program.
      [parse_str] is shown never to produce it, and the results about
      evaluation are about evaluations that finish at some depth. *)

From Stdlib Require Import ZArith Ascii String List Bool Lia Arith.
Import ListNotations.

Set Implicit Arguments.

(** ** Text *)

Definition text := list ascii.

Definition str (s : string) : text := list_ascii_of_string s.

(** The [int] returned by [peek]: a character, or [None] at end of input. *)
Definition peek (inp : text) : option ascii := hd_error inp.

(** ** The C character classes, in the "C" locale *)

Definition code (c : ascii) : nat := nat_of_ascii c.

Definition isdigit (c : ascii) : bool :=
  (48 <=? code c)%nat && (code c <=? 57)%nat.

Definition isalpha (c : ascii) : bool :=
  ((65 <=? code c)%nat && (code c <=? 90)%nat)
  || ((97 <=? code c)%nat && (code c <=? 122)%nat).

(** space, and the range from horizontal tab to carriage return *)
Definition isspace (c : ascii) : bool :=
  (code c =? 32)%nat || ((9 <=? code c)%nat && (code c <=? 13)%nat).

Definition isdigit_i (c : option ascii) : bool :=
  match c with Some a => isdigit a | None => false end.

Definition isalpha_i (c : option ascii) : bool :=
  match c with Some a => isalpha a | None => false end.

Definition is_char (c : option ascii) (a : ascii) : bool :=
  match c with Some b => Ascii.eqb b a | None => false end.

(** ** Machine integers *)

Definition int_min : Z := -2147483648.
Definition int_max : Z := 2147483647.

Definition in_int_range (z : Z) : Prop := (int_min <= z <= int_max)%Z.

(** Reduction of a mathematical integer to 32-bit two's complement. *)
Definition int_wrap (z : Z) : Z :=
  ((z + 2147483648) mod 4294967296 - 2147483648)%Z.

(** ** Results of fallible computations *)

Inductive result (E A : Type) : Type :=
| Ok (a : A)
| Throw (err : E)
| OutOfFuel.

Arguments Ok {E A} a.
Arguments Throw {E A} err.
Arguments OutOfFuel {E A}.

Definition bind {E A B : Type} (m : result E A) (k : A -> result E B)
  : result E B :=
  match m with
  | Ok a => k a
  | Throw err => Throw err
  | OutOfFuel => OutOfFuel
  end.

Notation "x <- m ;; k" := (bind m (fun x => k))
  (at level 61, m at next level, right associativity).
Notation "' pat <- m ;; k" := (bind m (fun x => match x with pat => k end))
  (at level 61, pat pattern, m at next level, right associativity).

(** ** Expressions ([Expr] and its subclasses) *)

Inductive Expr : Type :=
| NumExpr (val : Z)
| VarExpr (val : text)
| AddExpr (lhs rhs : Expr)
| MultExpr (lhs rhs : Expr)
| LetExpr (lhs : text) (rhs body : Expr)
| BoolExpr (val : bool)
| IfExpr (if_ then_ else_ : Expr)
| EqExpr (lhs rhs : Expr)
| FunExpr (formal_arg : text) (body : Expr)
| CallExpr (to_be_called actual_arg : Expr).

Definition text_eqb (a b : text) : bool :=
  if list_eq_dec ascii_dec a b then true else false.

(** [equals]: the dynamic cast fails (and the result is [false]) exactly
    when the other expression belongs to another class. *)
Fixpoint equals (this e : Expr) : bool :=
  match this, e with
  | NumExpr v, NumExpr w => Z.eqb v w
  | VarExpr v, VarExpr w => text_eqb v w
  | AddExpr l r, AddExpr l' r' => equals l l' && equals r r'
  | MultExpr l r, MultExpr l' r' => equals l l' && equals r r'
  | LetExpr x r b, LetExpr x' r' b' =>
      text_eqb x x' && equals r r' && equals b b'
  | BoolExpr v, BoolExpr w => Bool.eqb v w
  | IfExpr c t f, IfExpr c' t' f' =>
      equals c c' && equals t t' && equals f f'
  | EqExpr l r, EqExpr l' r' => equals r r' && equals l l'
  | FunExpr x b, FunExpr x' b' => text_eqb x x' && equals b b'
  | CallExpr f a, CallExpr f' a' => equals f f' && equals a a'
  | _, _ => false
  end.

(** ** [std::to_string(int)] *)

Definition digit_char (d : Z) : ascii := ascii_of_nat (48 + Z.to_nat d).

Definition digit_val (c : ascii) : Z := (Z.of_nat (code c) - 48)%Z.

(** Decimal digits of a non-negative number, least significant first. *)
Fixpoint dec_digits (fuel : nat) (n : Z) : list Z :=
  match fuel with
  | O => []
  | S f => if (n <? 10)%Z then [n]
           else (n mod 10)%Z :: dec_digits f (n / 10)%Z
  end.

Definition digits_text (n : Z) : text :=
  map digit_char (rev (dec_digits (S (Z.to_nat (Z.log2 n))) n)).

Definition int_to_string (n : Z) : text :=
  if (n <? 0)%Z then "-"%char :: digits_text (- n) else digits_text n.

(** ** Canonical printing: [print] and [to_string] *)

Fixpoint print (e : Expr) : text :=
  match e with
  | NumExpr v => int_to_string v
  | VarExpr v => v
  | AddExpr l r => str "(" ++ print l ++ str "+" ++ print r ++ str ")"
  | MultExpr l r => str "(" ++ print l ++ str "*" ++ print r ++ str ")"
  | LetExpr x r b =>
      str "(_let " ++ x ++ str "=" ++ print r ++ str " _in " ++ print b
        ++ str ")"
  | BoolExpr v => if v then str "_true" else str "_false"
  | IfExpr c t f =>
      str "(" ++ str "_if" ++ print c ++ str "_then" ++ print t
        ++ str "_else" ++ print f ++ str ")"
  | EqExpr l r => str "(" ++ print r ++ str "==" ++ print l ++ str ")"
  | FunExpr x b => str "_fun (" ++ x ++ str ") " ++ print b
  | CallExpr f a => str "(" ++ print f ++ str ") (" ++ print a ++ str ")"
  end.

Definition to_string (e : Expr) : text := print e.

(** ** Pretty printing *)

(** Modelled from the spec: the enumeration [precedence_t] is declared in
    Expr.hpp, which is not among the sources; the spec orders its levels
    "none < add < mult". *)
Inductive precedence_t : Type := prec_none | prec_add | prec_mult.

Definition prec_rank (p : precedence_t) : nat :=
  match p with prec_none => 0 | prec_add => 1 | prec_mult => 2 end.

Definition prec_ge (p q : precedence_t) : bool :=
  (prec_rank q <=? prec_rank p)%nat.

(** The state threaded through [pretty_print_at]: the characters written
    to the [ostream] so far and the reference parameter [strmpos]. *)
Definition pp_state : Type := (text * nat)%type.

Definition emit (s : text) (st : pp_state) : pp_state :=
  (fst st ++ s, snd st).

Definition emit_if (b : bool) (s : text) (st : pp_state) : pp_state :=
  if b then emit s st else st.

(** [ostream.tellp()] of a string stream that started empty. *)
Definition tellp (st : pp_state) : nat := length (fst st).

Definition set_strmpos (p : nat) (st : pp_state) : pp_state := (fst st, p).

(** The character written by [ostream << "\n"]. *)
Definition newline : ascii := "010"%char.

(** [string(depth, ' ')] *)
Definition spaces (depth : nat) : text := repeat " "%char depth.

(** [NumExpr] and [VarExpr] inherit [Expr::pretty_print_at], which calls
    [print].  [strmpos] never exceeds [tellp] (lemma
    [pretty_print_at_strmpos]), so the difference
    [startPosition - strmpos] is taken in [nat]. *)
Fixpoint pretty_print_at (e : Expr) (prec : precedence_t) (let_parent : bool)
    (st : pp_state) : pp_state :=
  match e with
  | NumExpr _ | VarExpr _ => emit (print e) st
  | AddExpr l r =>
      let st := emit_if (prec_ge prec prec_add) (str "(") st in
      let st := pretty_print_at l prec_add true st in
      let st := emit (str " + ") st in
      let st := pretty_print_at r prec_none let_parent st in
      emit_if (prec_ge prec prec_add) (str ")") st
  | MultExpr l r =>
      let parent := if prec_ge prec prec_mult then false else let_parent in
      let st := emit_if (prec_ge prec prec_mult) (str "(") st in
      let st := pretty_print_at l prec_mult true st in
      let st := emit (str " * ") st in
      let st := pretty_print_at r prec_add parent st in
      emit_if (prec_ge prec prec_mult) (str ")") st
  | LetExpr x r b =>
      let st := emit_if let_parent (str "(") st in
      let startPosition := tellp st in
      let depth := (startPosition - snd st)%nat in
      let st := emit (str "_let " ++ x ++ str " = ") st in
      let st := pretty_print_at r prec_none false st in
      let st := emit [newline] st in
      let st := set_strmpos (tellp st) st in
      let st := emit (spaces depth ++ str "_in  ") st in
      let st := pretty_print_at b prec_none false st in
      emit_if let_parent (str ")") st
  | BoolExpr v => emit (if v then str "_true" else str "_false") st
  | IfExpr c t f =>
      let st := emit_if let_parent (str "(") st in
      let st := emit (str "_if ") st in
      let st := pretty_print_at c prec_none false st in
      let st := emit [newline] st in
      let st := set_strmpos (tellp st) st in
      let st := emit (str "_then ") st in
      let st := pretty_print_at t prec_none false st in
      let st := emit [newline] st in
      let st := emit (str "_else ") st in
      let st := set_strmpos (tellp st) st in
      let st := pretty_print_at f prec_none false st in
      let st := emit_if let_parent (str ")") st in
      emit [newline] st
  | EqExpr l r =>
      let st := emit_if let_parent (str "(") st in
      let st := pretty_print_at l prec_none false st in
      let st := emit (str "==") st in
      let st := pretty_print_at r prec_none false st in
      emit_if let_parent (str ")") st
  | FunExpr _ _ => st
  | CallExpr _ _ => st
  end.

Definition pretty_print (e : Expr) (out : text) : text :=
  fst (pretty_print_at e prec_none false (out, 0%nat)).

Definition to_pretty_string (e : Expr) : text := pretty_print e [].

(** ** The parser ([parse.cpp])

    [parse.cpp] names the node classes [Num], [Var], [Add], [Mult] and
    [Let]; they are the [NumExpr], [VarExpr], [AddExpr], [MultExpr] and
    [LetExpr] of [Expr.cpp]. *)

Definition parsed : Type := result string (Expr * text).

(** [consume(in, expect)]: [in.get()] removes a character if there is one
    and returns [EOF] otherwise. *)
Definition consume (inp : text) (expect : option ascii)
  : result string text :=
  match inp, expect with
  | c :: rest, Some a =>
      if Ascii.eqb c a then Ok rest else Throw "consume mismatch"%string
  | [], None => Ok []
  | _, _ => Throw "consume mismatch"%string
  end.

(** The character consumed in the loop is the one just peeked, so the
    [consume] there cannot throw. *)
Fixpoint skip_whitespace (inp : text) : text :=
  match inp with
  | c :: rest => if isspace c then skip_whitespace rest else inp
  | [] => []
  end.

Fixpoint parse_num_loop (n : Z) (inp : text) : Z * text :=
  match inp with
  | c :: rest =>
      if isdigit c
      then parse_num_loop (int_wrap (n * 10 + digit_val c)) rest
      else (n, inp)
  | [] => (n, inp)
  end.

Definition parse_num (inp : text) : parsed :=
  if is_char (peek inp) "-" then
    inp <- consume inp (Some "-"%char) ;;
    if negb (isdigit_i (peek inp)) then Throw "not a num"%string
    else
      let '(n, inp) := parse_num_loop 0 inp in
      Ok (NumExpr (int_wrap (n * -1)), inp)
  else
    let '(n, inp) := parse_num_loop 0 inp in
    Ok (NumExpr n, inp).

Fixpoint parse_var_loop (inp : text) : text * text :=
  match inp with
  | c :: rest =>
      if isalpha c
      then let '(s, inp') := parse_var_loop rest in (c :: s, inp')
      else ([], inp)
  | [] => ([], inp)
  end.

Definition parse_var (inp : text) : Expr * text :=
  let '(s, inp) := parse_var_loop inp in (VarExpr s, inp).

Fixpoint consume_word (inp : text) (w : text) {struct w}
  : result string text :=
  match w with
  | [] => Ok inp
  | c :: w' =>
      match inp with
      | d :: rest =>
          if Ascii.eqb d c then consume_word rest w'
          else Throw "consume mismatch"%string
      | [] => Throw "consume mismatch"%string
      end
  end.

(** [parse_let], with the recursive call to [parse_expr] abstracted. *)
Definition parse_let_with (parse_expr : text -> parsed) (inp : text)
  : parsed :=
  let inp := skip_whitespace inp in
  inp <- consume_word inp (str "_let") ;;
  let inp := skip_whitespace inp in
  let '(e, inp) := parse_var inp in
  let lhs := to_string e in
  let inp := skip_whitespace inp in
  inp <- consume inp (Some "="%char) ;;
  let inp := skip_whitespace inp in
  '(rhs, inp) <- parse_expr inp ;;
  let inp := skip_whitespace inp in
  inp <- consume_word inp (str "_in") ;;
  let inp := skip_whitespace inp in
  '(body, inp) <- parse_expr inp ;;
  Ok (LetExpr lhs rhs body, inp).

Fixpoint parse_expr (fuel : nat) (inp : text) : parsed :=
  match fuel with
  | O => OutOfFuel
  | S f =>
      '(e, inp) <- parse_addend f inp ;;
      let inp := skip_whitespace inp in
      if is_char (peek inp) "+" then
        inp <- consume inp (Some "+"%char) ;;
        '(rhs, inp) <- parse_expr f inp ;;
        Ok (AddExpr e rhs, inp)
      else Ok (e, inp)
  end

with parse_addend (fuel : nat) (inp : text) : parsed :=
  match fuel with
  | O => OutOfFuel
  | S f =>
      '(e, inp) <- parse_multicand f inp ;;
      let inp := skip_whitespace inp in
      if is_char (peek inp) "*" then
        inp <- consume inp (Some "*"%char) ;;
        let inp := skip_whitespace inp in
        '(rhs, inp) <- parse_addend f inp ;;
        Ok (MultExpr e rhs, inp)
      else Ok (e, inp)
  end

with parse_multicand (fuel : nat) (inp : text) : parsed :=
  match fuel with
  | O => OutOfFuel
  | S f =>
      let inp := skip_whitespace inp in
      let c := peek inp in
      if is_char c "-" || isdigit_i c then parse_num inp
      else if is_char c "(" then
        inp <- consume inp (Some "("%char) ;;
        '(e, inp) <- parse_expr f inp ;;
        let inp := skip_whitespace inp in
        match inp with
        | c :: rest =>
            if Ascii.eqb c ")" then Ok (e, rest)
            else Throw "missing close parenthesis"%string
        | [] => Throw "missing close parenthesis"%string
        end
      else if isalpha_i c then Ok (parse_var inp)
      else if is_char c "_" then parse_let_with (parse_expr f) inp
      else
        _ <- consume inp c ;;
        Throw "invalid input"%string
  end.

Definition parse_let (fuel : nat) (inp : text) : parsed :=
  parse_let_with (parse_expr fuel) inp.

(** [in.eof()] after [skip_whitespace]: the last [peek] set the end-of-file
    flag exactly when nothing is left. *)
Definition eof (inp : text) : bool :=
  match inp with [] => true | _ => false end.

Definition parse (fuel : nat) (inp : text) : result string Expr :=
  '(e, inp) <- parse_expr fuel inp ;;
  let inp := skip_whitespace inp in
  if negb (eof inp) then Throw "invalid input"%string
  else Ok e.

(** Recursion depth sufficient for an input: every cycle through
    [parse_expr], [parse_addend] and [parse_multicand] consumes a
    character (lemma [parse_expr_total]). *)
Definition parse_depth (inp : text) : nat := 3 * length inp + 3.

Definition parse_str (s : text) : result string Expr :=
  parse (parse_depth s) s.

(** ** Values and environments

    Val.cpp, env.cpp and the headers are not among the sources; the
    classes below are the ones [Expr.cpp] uses ([NumVal], [BoolVal],
    [FunVal], [Env::empty], [ExtendedEnv]) and their operations follow the
    spec's data model. *)

Inductive Val : Type :=
| NumVal (rep : Z)
| BoolVal (rep : bool)
| FunVal (formal_arg : text) (body : Expr) (env : Env)

with Env : Type :=
| EmptyEnv
| ExtendedEnv (name : text) (val : Val) (rest : Env).

(** What stops an evaluation.  The first two are the spec's error kinds.
    [NullDereference] is not an exception: it marks a member call through
    a null [PTR(Env)], where the behaviour of the program is undefined. *)
Inductive failure : Type :=
| UnboundVariableError
| TypeError
| NullDereference.

Definition outcome : Type := result failure Val.

(** Modelled from the spec: [Env::lookup] (env.cpp is absent).  "Lookup of
    a name walks from the innermost Extended outward, returning the first
    matching binding"; "lookup on Empty fails with an unbound-variable
    error". *)
Fixpoint lookup (env : Env) (find_name : text) : outcome :=
  match env with
  | EmptyEnv => Throw UnboundVariableError
  | ExtendedEnv name val rest =>
      if text_eqb find_name name then Ok val else lookup rest find_name
  end.

(** Modelled from the spec: [Val::add_to] and [Val::mult_with] (Val.cpp is
    absent).  They "are defined only on the matching variant(s) and fail
    with a type error otherwise"; the arithmetic is that of [int]. *)
Definition add_to (this other : Val) : outcome :=
  match this, other with
  | NumVal a, NumVal b => Ok (NumVal (int_wrap (a + b)))
  | _, _ => Throw TypeError
  end.

Definition mult_with (this other : Val) : outcome :=
  match this, other with
  | NumVal a, NumVal b => Ok (NumVal (int_wrap (a * b)))
  | _, _ => Throw TypeError
  end.

(** Modelled from the spec: [BoolVal::is_true] (Val.cpp is absent), the
    test "it is BoolVal(true)" on a value already cast to [BoolVal]. *)
Definition is_true (rep : bool) : bool := rep.

(** Modelled from the spec: [FunVal::call] (Val.cpp is absent).  "evaluate
    the function body under the closure's captured environment extended
    with param bound to the argument value"; a value that is not a
    [FunVal] gives a type error.  The recursive [interp] is a parameter. *)
Definition call (interp : Expr -> option Env -> outcome)
    (this actual_arg : Val) : outcome :=
  match this with
  | FunVal formal_arg body env =>
      interp body (Some (ExtendedEnv formal_arg actual_arg env))
  | _ => Throw TypeError
  end.

(** [if (env == nullptr) env = Env::empty;] *)
Definition or_empty (env : option Env) : Env :=
  match env with
  | None => EmptyEnv
  | Some en => en
  end.

Section Evaluator.

(** The spec leaves the rule comparing two [FunVal]s open ("a
    definition-appropriate rule"); it is a parameter of the evaluator. *)
Variable funval_equals : text -> Expr -> Env -> text -> Expr -> Env -> bool.

(** Modelled from the spec: [Val::equals] (Val.cpp is absent).  "Equality
    is structural and variant-sensitive". *)
Definition val_equals (this other : Val) : bool :=
  match this, other with
  | NumVal a, NumVal b => Z.eqb a b
  | BoolVal a, BoolVal b => Bool.eqb a b
  | FunVal x b en, FunVal x' b' en' => funval_equals x b en x' b' en'
  | _, _ => false
  end.

(** [interp]: the environment argument is a pointer, [None] when it is
    null (no environment supplied).  Where C++ leaves the order of the
    receiver and the argument of [a->interp(env)->op(b->interp(env))]
    open, the receiver is evaluated first. *)
Fixpoint interp (fuel : nat) (e : Expr) (env : option Env) : outcome :=
  match fuel with
  | O => OutOfFuel
  | S f =>
      match e with
      | NumExpr val => Ok (NumVal val)
      | VarExpr val =>
          match env with
          | None => Throw NullDereference
          | Some en => lookup en val
          end
      | AddExpr lhs rhs =>
          let env := Some (or_empty env) in
          a <- interp f lhs env ;;
          b <- interp f rhs env ;;
          add_to a b
      | MultExpr lhs rhs =>
          let env := Some (or_empty env) in
          a <- interp f lhs env ;;
          b <- interp f rhs env ;;
          mult_with a b
      | LetExpr lhs rhs body =>
          let env := or_empty env in
          rhsValue <- interp f rhs (Some env) ;;
          let new_env := ExtendedEnv lhs rhsValue env in
          interp f body (Some new_env)
      | BoolExpr val => Ok (BoolVal val)
      | IfExpr if_ then_ else_ =>
          let env := Some (or_empty env) in
          conditionValue <- interp f if_ env ;;
          match conditionValue with
          | BoolVal rep =>
              if is_true rep then interp f then_ env
              else interp f else_ env
          | _ => interp f else_ env
          end
      | EqExpr lhs rhs =>
          let env := Some (or_empty env) in
          r <- interp f rhs env ;;
          l <- interp f lhs env ;;
          Ok (BoolVal (val_equals r l))
      | FunExpr formal_arg body =>
          let env := or_empty env in
          Ok (FunVal formal_arg body env)
      | CallExpr to_be_called actual_arg =>
          let env := Some (or_empty env) in
          g <- interp f to_be_called env ;;
          a <- interp f actual_arg env ;;
          call (interp f) g a
      end
  end.

(** An evaluation that finishes, whatever depth it needs. *)
Definition evaluates (e : Expr) (env : option Env) (r : outcome) : Prop :=
  r <> OutOfFuel /\ exists fuel, interp fuel e env = r.

End Evaluator.

(** The tree of the closure-capture program
    [_let x=1 _in _let f=_fun(y) x+y _in _let x=2 _in f 3]. *)
Definition closure_program : Expr :=
  LetExpr (str "x") (NumExpr 1)
    (LetExpr (str "f")
       (FunExpr (str "y") (AddExpr (VarExpr (str "x")) (VarExpr (str "y"))))
       (LetExpr (str "x") (NumExpr 2)
          (CallExpr (VarExpr (str "f")) (NumExpr 3)))).

Definition closure_text : text :=
  str "_let x=1 _in _let f=_fun(y) x+y _in _let x=2 _in f 3".

(** The branch an [IfExpr] takes for a condition value. *)
Definition if_branch (conditionValue : Val) (then_ else_ : Expr) : Expr :=
  match conditionValue with
  | BoolVal true => then_
  | _ => else_
  end.

(** ** Vocabulary of the parser's properties *)

(** A parse that finishes, whatever recursion depth it needs. *)
Definition parses_expr (inp : text) (e : Expr) (rest : text) : Prop :=
  exists fuel, parse_expr fuel inp = Ok (e, rest).

Definition parses_addend (inp : text) (e : Expr) (rest : text) : Prop :=
  exists fuel, parse_addend fuel inp = Ok (e, rest).

Definition parses_multicand (inp : text) (e : Expr) (rest : text) : Prop :=
  exists fuel, parse_multicand fuel inp = Ok (e, rest).

(** A parser that consumes input whenever it succeeds. *)
Definition consuming (p : text -> parsed) : Prop :=
  forall inp e rest, p inp = Ok (e, rest) -> (length rest < length inp)%nat.

(** [p'] gives every finished result of [p]. *)
Definition extends (p p' : text -> parsed) : Prop :=
  forall inp r, p inp = r -> r <> OutOfFuel -> p' inp = r.

(** The same, with the remaining input known up to the white space at
    its front ([parse_expr] and [parse_addend] return after skipping it). *)
Definition parsesW_expr (inp : text) (e : Expr) (rest : text) : Prop :=
  exists rest', parses_expr inp e rest'
                /\ skip_whitespace rest' = skip_whitespace rest.

Definition parsesW_addend (inp : text) (e : Expr) (rest : text) : Prop :=
  exists rest', parses_addend inp e rest'
                /\ skip_whitespace rest' = skip_whitespace rest.

Definition parsesW_multicand (inp : text) (e : Expr) (rest : text) : Prop :=
  exists rest', parses_multicand inp e rest'
                /\ skip_whitespace rest' = skip_whitespace rest.

(** ** Vocabulary of number literals *)

(** The mathematical value of a run of decimal digits. *)
Definition decimal_value (digits : text) : Z :=
  fold_left (fun a c => (a * 10 + digit_val c)%Z) digits 0%Z.

(** The accumulation [n = n*10 + (c - '0')] of [parse_num], in [int]. *)
Definition accumulate (digits : text) (n : Z) : Z :=
  fold_left (fun a c => int_wrap (a * 10 + digit_val c)) digits n.

(** The input does not go on with a digit, or with a letter or digit. *)
Definition no_digit_head (rest : text) : bool := negb (isdigit_i (peek rest)).

Definition no_alnum_head (rest : text) : bool :=
  negb (isdigit_i (peek rest)) && negb (isalpha_i (peek rest)).

(** The value of a list of digits given least significant first. *)
Fixpoint digits_value (l : list Z) : Z :=
  match l with
  | [] => 0%Z
  | d :: l' => (d + 10 * digits_value l')%Z
  end.

(** ** The expressions the parser of [parse.cpp] can build

    Numbers that fit an [int], variables with a non-empty alphabetic name,
    sums, products, and [_let] with an alphabetic name.  [parse.cpp] has no
    case for [_true], [_false], [_if], [==], [_fun] or a call. *)
Fixpoint parseable (e : Expr) : Prop :=
  match e with
  | NumExpr val => in_int_range val
  | VarExpr val => val <> [] /\ forallb isalpha val = true
  | AddExpr lhs rhs => parseable lhs /\ parseable rhs
  | MultExpr lhs rhs => parseable lhs /\ parseable rhs
  | LetExpr lhs rhs body =>
      forallb isalpha lhs = true /\ parseable rhs /\ parseable body
  | _ => False
  end.

(** ** Sample expressions and texts *)

Definition sample_let : Expr :=
  LetExpr (str "x") (NumExpr 5)
    (AddExpr (VarExpr (str "x")) (MultExpr (NumExpr (-3)) (VarExpr (str "y")))).

Definition shadow_text : text := str "_let x=1 _in _let x=2 _in x".

Definition shadow_program : Expr :=
  LetExpr (str "x") (NumExpr 1)
    (LetExpr (str "x") (NumExpr 2) (VarExpr (str "x"))).

(** ** Vocabulary of the pretty printer's properties *)

(** The first character after the white space at the front. *)
Definition next_char (rest : text) : option ascii :=
  peek (skip_whitespace rest).

(** What may follow the text written by [pretty_print_at e prec
    let_parent] for it to be read back as [e]: no letter or digit directly
    after it; no [*] next unless the text is the left operand of a
    product ([prec_mult] with [let_parent]); no [+] next unless it is a
    left operand. *)
Definition follows (prec : precedence_t) (let_parent : bool) (rest : text)
  : Prop :=
  no_alnum_head rest = true
  /\ (negb let_parent || negb (prec_ge prec prec_mult) = true ->
      is_char (next_char rest) "*" = false)
  /\ (negb let_parent || negb (prec_ge prec prec_add) = true ->
      is_char (next_char rest) "+" = false).

(** The parser function that reads an operand printed at a precedence. *)
Definition parsesW_at (prec : precedence_t) (inp : text) (e : Expr)
    (rest : text) : Prop :=
  match prec with
  | prec_none => parsesW_expr inp e rest
  | prec_add => parsesW_addend inp e rest
  | prec_mult => parsesW_multicand inp e rest
  end.

(** The invariant of the printer's state: [strmpos] is a position that
    has been written. *)
Definition strmpos_written (st : pp_state) : Prop :=
  (snd st <= tellp st)%nat.

(** A product under a sum, with [_let] in the positions where the printer
    must and must not bracket it. *)
Definition sample_nested : Expr :=
  AddExpr
    (MultExpr (NumExpr 2)
       (LetExpr (str "x") (NumExpr 5) (VarExpr (str "x"))))
    (LetExpr (str "y") (AddExpr (NumExpr (-1)) (VarExpr (str "z")))
       (MultExpr (AddExpr (VarExpr (str "y")) (NumExpr 3)) (NumExpr 4))).

(** ** Reading from standard input ([parse_input])

    [cin] and [cout] are the characters still to be read and the
    characters written so far. *)

(** [getline(cin, input)]: the characters up to the first newline, which
    is removed from the stream and not stored; at the end of the stream,
    whatever was left. *)
Fixpoint getline (cin : text) : text * text :=
  match cin with
  | [] => ([], [])
  | c :: rest =>
      if Ascii.eqb c newline then ([], rest)
      else let '(line, cin') := getline rest in (c :: line, cin')
  end.

(** [parse_input]: the result of [parse_expr] on the line, the rest of
    [cin], and [cout] after the echo.  Unlike [parse] it does not look at
    what is left of the line. *)
Definition parse_input (cin cout : text)
  : result string Expr * text * text :=
  let '(input, cin) := getline cin in
  let cout := cout ++ str "input: " ++ input ++ [newline] in
  ('(e, _) <- parse_expr (parse_depth input) input ;; Ok e, cin, cout).

(** ** Vocabulary of the further properties *)

(** The messages of the [runtime_error]s thrown in [parse.cpp]. *)
Definition parse_error_message (msg : string) : Prop :=
  msg = "invalid input"%string
  \/ msg = "missing close parenthesis"%string
  \/ msg = "not a num"%string
  \/ msg = "consume mismatch"%string.

(** The output column: the characters written since [strmpos]. *)
Definition column (st : pp_state) : nat := (tellp st - snd st)%nat.

(** Two printer states, reached from streams holding [o1] and [o2] by
    writing the same text, at the same column. *)
Definition in_step (o1 o2 : text) (a b : pp_state) : Prop :=
  strmpos_written a /\ strmpos_written b /\ column a = column b
  /\ exists t : list ascii, fst a = o1 ++ t /\ fst b = o2 ++ t.

(** An expression that is a bare variable. *)
Definition is_VarExpr (e : Expr) : bool :=
  match e with VarExpr _ => true | _ => false end.

(** ** Vocabulary of the trailing white space property *)

(** [b] is [a] with white space added at its end. *)
Definition ws_extended (a b : text) : Prop :=
  exists ws, forallb isspace ws = true /\ b = a ++ ws.

(** Two results that are the same error, or values related by [RA]. *)
Definition alike {A : Type} (RA : A -> A -> Prop) (m1 m2 : result string A)
  : Prop :=
  match m1 with
  | Ok x => exists y, m2 = Ok y /\ RA x y
  | Throw msg => m2 = Throw msg
  | OutOfFuel => m2 = OutOfFuel
  end.

(** The same expression, with remaining inputs related by [ws_extended]. *)
Definition same_parse (x y : Expr * text) : Prop :=
  fst x = fst y /\ ws_extended (snd x) (snd y).

(** A parser that does not see white space added at the end. *)
Definition blind_to_trailing (p : text -> parsed) : Prop :=
  forall a b, ws_extended a b -> alike same_parse (p a) (p b).

(** * Properties *)

(** ** The evaluator *)

Section EvaluatorFacts.

Variable funval_equals : text -> Expr -> Env -> text -> Expr -> Env -> bool.

Local Abbreviation interp := (interp funval_equals).
Local Abbreviation evaluates := (evaluates funval_equals).

Ltac mono_on t IH He :=
  let E := fresh "E" in
  destruct t eqn:E; simpl in He;
  [ rewrite (IH _ _ _ E ltac:(discriminate)); simpl
  | rewrite (IH _ _ _ E ltac:(discriminate)); simpl; exact He
  | congruence ].

(** More depth never changes the outcome of a finished evaluation. *)
Lemma interp_mono :
  forall fuel fuel' e env r,
    (fuel <= fuel')%nat -> interp fuel e env = r -> r <> OutOfFuel ->
    interp fuel' e env = r.
Proof.
  induction fuel as [|f IH]; intros fuel' e env r Hle He Hr;
    simpl in He; [congruence|].
  destruct fuel' as [|f']; [lia|]. simpl.
  assert (IH' : forall e env r, interp f e env = r -> r <> OutOfFuel ->
                                interp f' e env = r).
  { intros. apply IH with (fuel' := f'); auto; lia. }
  destruct e; try exact He.
  - mono_on (interp f e1 (Some (or_empty env))) IH' He.
    mono_on (interp f e2 (Some (or_empty env))) IH' He.
    exact He.
  - mono_on (interp f e1 (Some (or_empty env))) IH' He.
    mono_on (interp f e2 (Some (or_empty env))) IH' He.
    exact He.
  - mono_on (interp f e1 (Some (or_empty env))) IH' He.
    apply IH'; assumption.
  - mono_on (interp f e1 (Some (or_empty env))) IH' He.
    destruct a as [n|[|]|x b en]; apply IH'; assumption.
  - mono_on (interp f e2 (Some (or_empty env))) IH' He.
    mono_on (interp f e1 (Some (or_empty env))) IH' He.
    exact He.
  - mono_on (interp f e1 (Some (or_empty env))) IH' He.
    mono_on (interp f e2 (Some (or_empty env))) IH' He.
    destruct a as [n|bb|x b0 en]; simpl in *; try exact He.
    apply IH'; assumption.
Qed.

(** A finished evaluation has one outcome. *)
Lemma evaluates_unique :
  forall e env r1 r2, evaluates e env r1 -> evaluates e env r2 -> r1 = r2.
Proof.
  intros e env r1 r2 [H1 [f1 E1]] [H2 [f2 E2]].
  rewrite <- (interp_mono (fuel' := Nat.max f1 f2) e env (Nat.le_max_l _ _) E1 H1).
  apply (interp_mono (fuel' := Nat.max f1 f2) e env (Nat.le_max_r _ _) E2 H2).
Qed.

Lemma evaluates_intro :
  forall fuel e env r,
    interp fuel e env = r -> r <> OutOfFuel -> evaluates e env r.
Proof. intros fuel e env r E Hr. split; [exact Hr | exists fuel; exact E]. Qed.

(** At some depth both a finished evaluation of [e1] and one of [e2]
    have given their outcomes. *)
Lemma evaluates_both :
  forall e1 env1 r1 e2 env2 r2,
    evaluates e1 env1 r1 -> evaluates e2 env2 r2 ->
    exists fuel, interp fuel e1 env1 = r1 /\ interp fuel e2 env2 = r2.
Proof.
  intros e1 env1 r1 e2 env2 r2 [H1 [f1 E1]] [H2 [f2 E2]].
  exists (Nat.max f1 f2). split.
  - apply interp_mono with (fuel := f1); auto using Nat.le_max_l.
  - apply interp_mono with (fuel := f2); auto using Nat.le_max_r.
Qed.

(** If a sub-evaluation at depth [f] is part of a finished one, it
    agrees with any finished evaluation of the same expression. *)
Lemma interp_agrees :
  forall f e env r,
    evaluates e env r -> interp f e env <> OutOfFuel -> interp f e env = r.
Proof.
  intros f e env r H Hf.
  apply evaluates_unique with (e := e) (env := env); [|exact H].
  apply evaluates_intro with (fuel := f); auto.
Qed.

(** C6: under any environment (none supplied meaning the empty one), once
    the condition of an [IfExpr] has evaluated to a value, the [IfExpr]
    evaluates exactly as its then-branch when that value is
    [BoolVal true], and exactly as its else-branch for every other
    value, [BoolVal false] or not a boolean at all; no type error is
    raised for a condition that is not a boolean. *)
Theorem IfExpr_interp_permissive :
  forall if_ then_ else_ env conditionValue r,
    evaluates if_ (Some (or_empty env)) (Ok conditionValue) ->
    (conditionValue = BoolVal true ->
     (evaluates (IfExpr if_ then_ else_) env r <->
      evaluates then_ (Some (or_empty env)) r))
    /\ (conditionValue <> BoolVal true ->
        (evaluates (IfExpr if_ then_ else_) env r <->
         evaluates else_ (Some (or_empty env)) r)).
Proof.
  intros c t e env v r Hc.
  assert (Hbranch : evaluates (IfExpr c t e) env r <->
                    evaluates (if_branch v t e) (Some (or_empty env)) r).
  { split.
    - intros [Hr [fuel E]]. destruct fuel as [|f]; simpl in E; [congruence|].
      destruct (interp f c (Some (or_empty env))) as [v'| |] eqn:Ec;
        simpl in E; try congruence.
      + assert (Hv : Ok v' = Ok v :> outcome).
        { rewrite <- Ec. apply interp_agrees; [exact Hc|]. congruence. }
        injection Hv as ->.
        apply evaluates_intro with (fuel := f); [|exact Hr].
        destruct v as [n|[|]|x b en]; exact E.
      + assert (Hv : Throw err = Ok v :> outcome).
        { rewrite <- Ec. apply interp_agrees; [exact Hc|]. congruence. }
        discriminate.
    - intros Hb. destruct (evaluates_both Hc Hb) as [f [E1 E2]].
      apply evaluates_intro with (fuel := S f); [|apply Hb].
      simpl. rewrite E1. simpl.
      destruct v as [n|[|]|x b en]; exact E2. }
  split.
  - intros ->. exact Hbranch.
  - intros Hv. rewrite Hbranch.
    destruct v as [n|[|]|x b en]; simpl; try reflexivity. congruence.
Qed.

(** Once [rhs] has evaluated to a value under the environment of the
    [LetExpr] (the empty one if none is supplied), so without the new
    binding, the [LetExpr] evaluates exactly as [body] does under that
    environment extended with [lhs] bound to the value. *)
Lemma LetExpr_interp_body :
  forall lhs rhs body env rhsValue r,
    evaluates rhs (Some (or_empty env)) (Ok rhsValue) ->
    (evaluates (LetExpr lhs rhs body) env r <->
     evaluates body (Some (ExtendedEnv lhs rhsValue (or_empty env))) r).
Proof.
  intros x rhs body env v r Hrhs. split.
  - intros [Hr [fuel E]]. destruct fuel as [|f]; simpl in E; [congruence|].
    destruct (interp f rhs (Some (or_empty env))) as [v'| |] eqn:Ec;
      simpl in E; try congruence.
    + assert (Hv : Ok v' = Ok v :> outcome).
      { rewrite <- Ec. apply interp_agrees; [exact Hrhs|]. congruence. }
      injection Hv as ->.
      apply evaluates_intro with (fuel := f); assumption.
    + assert (Hv : Throw err = Ok v :> outcome).
      { rewrite <- Ec. apply interp_agrees; [exact Hrhs|]. congruence. }
      discriminate.
  - intros Hb. destruct (evaluates_both Hrhs Hb) as [f [E1 E2]].
    apply evaluates_intro with (fuel := S f); [|apply Hb].
    simpl. rewrite E1. simpl. exact E2.
Qed.

(** An error in [rhs] is the outcome of the [LetExpr]. *)
Lemma LetExpr_interp_rhs_error :
  forall lhs rhs body env err,
    evaluates rhs (Some (or_empty env)) (Throw err) ->
    evaluates (LetExpr lhs rhs body) env (Throw err).
Proof.
  intros x rhs body env err [_ [f E]].
  apply evaluates_intro with (fuel := S f); [|discriminate].
  simpl. rewrite E. reflexivity.
Qed.

(** A function literal evaluates to a closure over the environment in
    force (the empty one when none is supplied). *)
Lemma FunExpr_interp_captures :
  forall formal_arg body env,
    evaluates (FunExpr formal_arg body) env
      (Ok (FunVal formal_arg body (or_empty env))).
Proof.
  intros x b env. apply evaluates_intro with (fuel := 1%nat);
    [reflexivity | discriminate].
Qed.

(** A call of a closure evaluates the body under the captured
    environment extended with the parameter, not under the caller's. *)
Lemma CallExpr_interp_closure :
  forall to_be_called actual_arg env formal_arg body captured a r,
    evaluates to_be_called (Some (or_empty env))
      (Ok (FunVal formal_arg body captured)) ->
    evaluates actual_arg (Some (or_empty env)) (Ok a) ->
    (evaluates (CallExpr to_be_called actual_arg) env r <->
     evaluates body (Some (ExtendedEnv formal_arg a captured)) r).
Proof.
  intros g arg env x b cenv a r Hg Ha. split.
  - intros [Hr [fuel E]]. destruct fuel as [|f]; simpl in E; [congruence|].
    destruct (interp f g (Some (or_empty env))) as [v| |] eqn:Eg;
      simpl in E; try congruence.
    + assert (Hv : Ok v = Ok (FunVal x b cenv) :> outcome).
      { rewrite <- Eg. apply interp_agrees; [exact Hg|]. congruence. }
      injection Hv as ->.
      destruct (interp f arg (Some (or_empty env))) as [v| |] eqn:Earg;
        simpl in E; try congruence.
      * assert (Hv : Ok v = Ok a :> outcome).
        { rewrite <- Earg. apply interp_agrees; [exact Ha|]. congruence. }
        injection Hv as ->.
        apply evaluates_intro with (fuel := f); assumption.
      * assert (Hv : Throw err = Ok a :> outcome).
        { rewrite <- Earg. apply interp_agrees; [exact Ha|]. congruence. }
        discriminate.
    + assert (Hv : Throw err = Ok (FunVal x b cenv) :> outcome).
      { rewrite <- Eg. apply interp_agrees; [exact Hg|]. congruence. }
      discriminate.
  - intros Hb.
    destruct (evaluates_both Hg Ha) as [f1 [E1 E2]].
    destruct Hb as [Hr [f2 E3]].
    apply evaluates_intro with (fuel := S (Nat.max f1 f2)); [|exact Hr].
    simpl.
    rewrite (interp_mono (fuel' := Nat.max f1 f2) g _
               (Nat.le_max_l _ _) E1 ltac:(discriminate)). simpl.
    rewrite (interp_mono (fuel' := Nat.max f1 f2) arg _
               (Nat.le_max_l _ _) E2 ltac:(discriminate)). simpl.
    apply (interp_mono (fuel' := Nat.max f1 f2) b _
             (Nat.le_max_r _ _) E3 Hr).
Qed.

End EvaluatorFacts.

(** ** The parser: depth and termination *)

(** The equations of the three mutually recursive functions. *)
Lemma parse_expr_S :
  forall f inp,
    parse_expr (S f) inp =
    ('(e, inp) <- parse_addend f inp ;;
     let inp := skip_whitespace inp in
     if is_char (peek inp) "+" then
       inp <- consume inp (Some "+"%char) ;;
       '(rhs, inp) <- parse_expr f inp ;;
       Ok (AddExpr e rhs, inp)
     else Ok (e, inp)).
Proof. reflexivity. Qed.

Lemma parse_addend_S :
  forall f inp,
    parse_addend (S f) inp =
    ('(e, inp) <- parse_multicand f inp ;;
     let inp := skip_whitespace inp in
     if is_char (peek inp) "*" then
       inp <- consume inp (Some "*"%char) ;;
       let inp := skip_whitespace inp in
       '(rhs, inp) <- parse_addend f inp ;;
       Ok (MultExpr e rhs, inp)
     else Ok (e, inp)).
Proof. reflexivity. Qed.

Lemma parse_multicand_S :
  forall f inp,
    parse_multicand (S f) inp =
    (let inp := skip_whitespace inp in
     let c := peek inp in
     if is_char c "-" || isdigit_i c then parse_num inp
     else if is_char c "(" then
       inp <- consume inp (Some "("%char) ;;
       '(e, inp) <- parse_expr f inp ;;
       let inp := skip_whitespace inp in
       match inp with
       | c :: rest =>
           if Ascii.eqb c ")" then Ok (e, rest)
           else Throw "missing close parenthesis"%string
       | [] => Throw "missing close parenthesis"%string
       end
     else if isalpha_i c then Ok (parse_var inp)
     else if is_char c "_" then parse_let_with (parse_expr f) inp
     else
       _ <- consume inp c ;;
       Throw "invalid input"%string).
Proof. reflexivity. Qed.

Ltac par_on t IH H e i :=
  let E := fresh "E" in
  destruct t as [[e i]| |] eqn:E; cbn [bind] in H;
  [ rewrite (IH _ _ E ltac:(discriminate)); cbn [bind]
  | rewrite (IH _ _ E ltac:(discriminate)); cbn [bind]; exact H
  | match goal with
    | Hr : _ <> _ |- _ => exfalso; apply Hr; symmetry; exact H
    end ].

Lemma parse_let_with_extends :
  forall p p', extends p p' -> extends (parse_let_with p) (parse_let_with p').
Proof.
  intros p p' Hp inp r H Hr. unfold parse_let_with in *.
  destruct (consume_word (skip_whitespace inp) (str "_let")) as [i1| |];
    cbn [bind] in *; try exact H.
  destruct (parse_var (skip_whitespace i1)) as [e i2].
  destruct (consume (skip_whitespace i2) (Some "="%char)) as [i3| |];
    cbn [bind] in *; try exact H.
  par_on (p (skip_whitespace i3)) Hp H rhs i4.
  destruct (consume_word (skip_whitespace i4) (str "_in")) as [i5| |];
    cbn [bind] in *; try exact H.
  par_on (p (skip_whitespace i5)) Hp H body i6.
  exact H.
Qed.

(** More depth never changes the result of a finished parse. *)
Lemma parse_mono :
  forall fuel fuel', (fuel <= fuel')%nat ->
    extends (parse_expr fuel) (parse_expr fuel')
    /\ extends (parse_addend fuel) (parse_addend fuel')
    /\ extends (parse_multicand fuel) (parse_multicand fuel').
Proof.
  induction fuel as [|f IH]; intros fuel' Hle.
  - repeat split; intros inp r H Hr; simpl in H; congruence.
  - destruct fuel' as [|f']; [lia|].
    destruct (IH f' ltac:(lia)) as [IHe [IHa IHm]].
    repeat split; intros inp r H Hr.
    + rewrite parse_expr_S in *.
      par_on (parse_addend f inp) IHa H e i0.
      cbv zeta in *.
      destruct (is_char (peek (skip_whitespace i0)) "+"); [|exact H].
      destruct (consume (skip_whitespace i0) (Some "+"%char)) as [i1| |];
        cbn [bind] in *; try exact H.
      par_on (parse_expr f i1) IHe H rhs i2. exact H.
    + rewrite parse_addend_S in *.
      par_on (parse_multicand f inp) IHm H e i0.
      cbv zeta in *.
      destruct (is_char (peek (skip_whitespace i0)) "*"); [|exact H].
      destruct (consume (skip_whitespace i0) (Some "*"%char)) as [i1| |];
        cbn [bind] in *; try exact H.
      par_on (parse_addend f (skip_whitespace i1)) IHa H rhs i2. exact H.
    + rewrite parse_multicand_S in *. cbv zeta in *.
      destruct (is_char (peek (skip_whitespace inp)) "-"
                || isdigit_i (peek (skip_whitespace inp))); [exact H|].
      destruct (is_char (peek (skip_whitespace inp)) "(").
      { destruct (consume (skip_whitespace inp) (Some "("%char)) as [i1| |];
          cbn [bind] in *; try exact H.
        par_on (parse_expr f i1) IHe H e i2. exact H. }
      destruct (isalpha_i (peek (skip_whitespace inp))); [exact H|].
      destruct (is_char (peek (skip_whitespace inp)) "_"); [|exact H].
      apply (parse_let_with_extends IHe); assumption.
Qed.

Lemma parse_expr_mono :
  forall fuel fuel' inp x,
    (fuel <= fuel')%nat -> parse_expr fuel inp = Ok x ->
    parse_expr fuel' inp = Ok x.
Proof.
  intros fuel fuel' inp x Hle H.
  apply (proj1 (parse_mono Hle)); [exact H | discriminate].
Qed.

Lemma parse_addend_mono :
  forall fuel fuel' inp x,
    (fuel <= fuel')%nat -> parse_addend fuel inp = Ok x ->
    parse_addend fuel' inp = Ok x.
Proof.
  intros fuel fuel' inp x Hle H.
  apply (proj1 (proj2 (parse_mono Hle))); [exact H | discriminate].
Qed.

Lemma parse_multicand_mono :
  forall fuel fuel' inp x,
    (fuel <= fuel')%nat -> parse_multicand fuel inp = Ok x ->
    parse_multicand fuel' inp = Ok x.
Proof.
  intros fuel fuel' inp x Hle H.
  apply (proj2 (proj2 (parse_mono Hle))); [exact H | discriminate].
Qed.

(** Every successful parse consumes at least one character. *)
Lemma skip_whitespace_length :
  forall inp, (length (skip_whitespace inp) <= length inp)%nat.
Proof.
  induction inp as [|c inp IH]; simpl; [lia|].
  destruct (isspace c); simpl; lia.
Qed.

Lemma parse_num_loop_length :
  forall inp n, (length (snd (parse_num_loop n inp)) <= length inp)%nat.
Proof.
  induction inp as [|c inp IH]; intros n; simpl; [lia|].
  destruct (isdigit c); simpl; [|lia].
  specialize (IH (int_wrap (n * 10 + digit_val c))). lia.
Qed.

Lemma parse_num_length :
  forall inp e rest,
    is_char (peek inp) "-" || isdigit_i (peek inp) = true ->
    parse_num inp = Ok (e, rest) -> (length rest < length inp)%nat.
Proof.
  intros inp e rest Hc H. unfold parse_num in H.
  destruct inp as [|c inp]; [discriminate|].
  cbn [peek hd_error is_char isdigit_i] in *.
  destruct (Ascii.eqb c "-") eqn:Ec.
  - cbn [consume] in H. rewrite Ec in H. cbn [bind] in H.
    destruct (negb (isdigit_i (peek inp))); [discriminate|].
    pose proof (parse_num_loop_length inp 0) as Hl.
    destruct (parse_num_loop 0 inp) as [n r]. cbv beta iota in H.
    injection H as _ Hrest; subst rest. simpl in *. lia.
  - simpl in Hc. cbn [parse_num_loop] in H. rewrite Hc in H.
    pose proof (parse_num_loop_length inp (int_wrap (0 * 10 + digit_val c)))
      as Hl.
    destruct (parse_num_loop _ inp) as [n r]. cbv beta iota in H.
    injection H as _ Hrest; subst rest. simpl in *. lia.
Qed.

Lemma parse_var_loop_length :
  forall inp, (length (snd (parse_var_loop inp)) <= length inp)%nat.
Proof.
  induction inp as [|c inp IH]; simpl; [lia|].
  destruct (isalpha c); simpl; [|lia].
  destruct (parse_var_loop inp) as [s r]. simpl in *. lia.
Qed.

Lemma parse_var_length :
  forall inp, (length (snd (parse_var inp)) <= length inp)%nat.
Proof.
  intros inp. unfold parse_var.
  pose proof (parse_var_loop_length inp) as Hl.
  destruct (parse_var_loop inp) as [s r]. exact Hl.
Qed.

Lemma parse_var_length_alpha :
  forall inp,
    isalpha_i (peek inp) = true ->
    (length (snd (parse_var inp)) < length inp)%nat.
Proof.
  intros [|c inp] Hc; [discriminate|]. simpl in Hc.
  unfold parse_var. simpl. rewrite Hc.
  pose proof (parse_var_loop_length inp) as Hl.
  destruct (parse_var_loop inp) as [s r]. simpl in *. lia.
Qed.

Lemma consume_length :
  forall inp c rest,
    consume inp (Some c) = Ok rest -> length inp = S (length rest).
Proof.
  intros [|d inp] c rest H; simpl in H; [discriminate|].
  destruct (Ascii.eqb d c); [|discriminate]. injection H as <-. reflexivity.
Qed.

Lemma consume_word_length :
  forall w inp rest,
    consume_word inp w = Ok rest ->
    length inp = (length w + length rest)%nat.
Proof.
  induction w as [|c w IH]; intros inp rest H; simpl in H.
  - injection H as <-. reflexivity.
  - destruct inp as [|d inp]; [discriminate|].
    destruct (Ascii.eqb d c); [|discriminate].
    apply IH in H. simpl. lia.
Qed.

Lemma parse_let_with_length :
  forall p, consuming p -> consuming (parse_let_with p).
Proof.
  intros p Hp inp e rest H. unfold parse_let_with in H.
  pose proof (skip_whitespace_length inp) as L0.
  destruct (consume_word (skip_whitespace inp) (str "_let")) as [i1| |] eqn:E1;
    cbn [bind] in H; try discriminate.
  apply consume_word_length in E1.
  pose proof (skip_whitespace_length i1) as L1.
  pose proof (parse_var_length (skip_whitespace i1)) as L2.
  destruct (parse_var (skip_whitespace i1)) as [v i2]. simpl in L2.
  pose proof (skip_whitespace_length i2) as L3.
  destruct (consume (skip_whitespace i2) (Some "="%char)) as [i3| |] eqn:E3;
    cbn [bind] in H; try discriminate.
  apply consume_length in E3.
  pose proof (skip_whitespace_length i3) as L4.
  destruct (p (skip_whitespace i3)) as [[rhs i4]| |] eqn:E4;
    cbn [bind] in H; try discriminate.
  apply Hp in E4.
  pose proof (skip_whitespace_length i4) as L5.
  destruct (consume_word (skip_whitespace i4) (str "_in")) as [i5| |] eqn:E5;
    cbn [bind] in H; try discriminate.
  apply consume_word_length in E5.
  pose proof (skip_whitespace_length i5) as L6.
  destruct (p (skip_whitespace i5)) as [[body i6]| |] eqn:E6;
    cbn [bind] in H; try discriminate.
  apply Hp in E6. injection H as _ Hrest; subst rest. simpl in *. lia.
Qed.

Lemma parse_length :
  forall fuel,
    consuming (parse_expr fuel) /\ consuming (parse_addend fuel)
    /\ consuming (parse_multicand fuel).
Proof.
  induction fuel as [|f [IHe [IHa IHm]]].
  - repeat split; intros inp e rest H; discriminate.
  - repeat split; intros inp e rest H.
    + rewrite parse_expr_S in H.
      destruct (parse_addend f inp) as [[l i0]| |] eqn:E0;
        cbn [bind] in H; try discriminate.
      apply IHa in E0. cbv zeta in H.
      pose proof (skip_whitespace_length i0) as L0.
      destruct (is_char (peek (skip_whitespace i0)) "+").
      * destruct (consume (skip_whitespace i0) (Some "+"%char)) as [i1| |] eqn:E1;
          cbn [bind] in H; try discriminate.
        apply consume_length in E1.
        destruct (parse_expr f i1) as [[r i2]| |] eqn:E2;
          cbn [bind] in H; try discriminate.
        apply IHe in E2. injection H as _ Hrest; subst rest. lia.
      * injection H as _ Hrest; subst rest. lia.
    + rewrite parse_addend_S in H.
      destruct (parse_multicand f inp) as [[l i0]| |] eqn:E0;
        cbn [bind] in H; try discriminate.
      apply IHm in E0. cbv zeta in H.
      pose proof (skip_whitespace_length i0) as L0.
      destruct (is_char (peek (skip_whitespace i0)) "*").
      * destruct (consume (skip_whitespace i0) (Some "*"%char)) as [i1| |] eqn:E1;
          cbn [bind] in H; try discriminate.
        apply consume_length in E1.
        pose proof (skip_whitespace_length i1) as L1.
        destruct (parse_addend f (skip_whitespace i1)) as [[r i2]| |] eqn:E2;
          cbn [bind] in H; try discriminate.
        apply IHa in E2. injection H as _ Hrest; subst rest. lia.
      * injection H as _ Hrest; subst rest. lia.
    + rewrite parse_multicand_S in H. cbv zeta in H.
      pose proof (skip_whitespace_length inp) as L0.
      destruct (is_char (peek (skip_whitespace inp)) "-"
                || isdigit_i (peek (skip_whitespace inp))) eqn:Enum.
      { apply parse_num_length in H; [lia | exact Enum]. }
      destruct (is_char (peek (skip_whitespace inp)) "(").
      { destruct (consume (skip_whitespace inp) (Some "("%char)) as [i1| |] eqn:E1;
          cbn [bind] in H; try discriminate.
        apply consume_length in E1.
        destruct (parse_expr f i1) as [[r i2]| |] eqn:E2;
          cbn [bind] in H; try discriminate.
        apply IHe in E2.
        pose proof (skip_whitespace_length i2) as L2.
        destruct (skip_whitespace i2) as [|c i3]; [discriminate|].
        destruct (Ascii.eqb c ")"); [|discriminate].
        injection H as _ Hrest; subst rest. simpl in *. lia. }
      destruct (isalpha_i (peek (skip_whitespace inp))) eqn:Ealpha.
      { pose proof (parse_var_length_alpha _ Ealpha) as L1.
        injection H as H. rewrite H in L1. simpl in L1. lia. }
      destruct (is_char (peek (skip_whitespace inp)) "_").
      { apply (parse_let_with_length IHe) in H. lia. }
      destruct (consume (skip_whitespace inp) (peek (skip_whitespace inp)));
        discriminate.
Qed.

Lemma consume_finishes :
  forall inp expect, consume inp expect <> OutOfFuel.
Proof.
  intros [|c inp] [a|]; simpl; try discriminate.
  destruct (Ascii.eqb c a); discriminate.
Qed.

Lemma consume_word_finishes :
  forall w inp, consume_word inp w <> OutOfFuel.
Proof.
  induction w as [|c w IH]; intros inp; simpl; [discriminate|].
  destruct inp as [|d inp]; [discriminate|].
  destruct (Ascii.eqb d c); [apply IH | discriminate].
Qed.

(** With depth [3 * length inp + 3] the parser never runs out of depth. *)
Lemma parse_let_with_total :
  forall p inp,
    consuming p ->
    (forall i, (length i < length inp)%nat -> p i <> OutOfFuel) ->
    parse_let_with p inp <> OutOfFuel.
Proof.
  intros p inp Hc Hp. unfold parse_let_with.
  pose proof (skip_whitespace_length inp) as L0.
  destruct (consume_word (skip_whitespace inp) (str "_let")) as [i1| |] eqn:E1;
    cbn [bind]; [| discriminate | now apply consume_word_finishes in E1].
  apply consume_word_length in E1.
  pose proof (skip_whitespace_length i1) as L1.
  pose proof (parse_var_length (skip_whitespace i1)) as L2.
  destruct (parse_var (skip_whitespace i1)) as [v i2]. simpl in L2.
  pose proof (skip_whitespace_length i2) as L3.
  destruct (consume (skip_whitespace i2) (Some "="%char)) as [i3| |] eqn:E3;
    cbn [bind]; [| discriminate | now apply consume_finishes in E3].
  apply consume_length in E3.
  pose proof (skip_whitespace_length i3) as L4.
  destruct (p (skip_whitespace i3)) as [[rhs i4]| |] eqn:E4; cbn [bind];
    try discriminate.
  2:{ exfalso. apply (Hp (skip_whitespace i3)); [simpl in *; lia | exact E4]. }
  apply Hc in E4.
  pose proof (skip_whitespace_length i4) as L5.
  destruct (consume_word (skip_whitespace i4) (str "_in")) as [i5| |] eqn:E5;
    cbn [bind]; [| discriminate | now apply consume_word_finishes in E5].
  apply consume_word_length in E5.
  pose proof (skip_whitespace_length i5) as L6.
  destruct (p (skip_whitespace i5)) as [[body i6]| |] eqn:E6; cbn [bind];
    [discriminate | discriminate | ].
  exfalso. apply (Hp (skip_whitespace i5)); [simpl in *; lia | exact E6].
Qed.

Lemma parse_total :
  forall fuel inp,
    ((3 * length inp + 3 <= fuel)%nat -> parse_expr fuel inp <> OutOfFuel)
    /\ ((3 * length inp + 2 <= fuel)%nat -> parse_addend fuel inp <> OutOfFuel)
    /\ ((3 * length inp + 1 <= fuel)%nat ->
        parse_multicand fuel inp <> OutOfFuel).
Proof.
  induction fuel as [|f IH]; intros inp.
  - repeat split; intros; lia.
  - destruct (parse_length f) as [Le [La Lm]].
    repeat split; intros Hf.
    + rewrite parse_expr_S.
      destruct (parse_addend f inp) as [[l i0]| |] eqn:E0; cbn [bind];
        try discriminate.
      2:{ apply (proj1 (proj2 (IH inp))) in E0; [contradiction | lia]. }
      apply La in E0. cbv zeta.
      pose proof (skip_whitespace_length i0) as L0.
      destruct (is_char (peek (skip_whitespace i0)) "+"); [|discriminate].
      destruct (consume (skip_whitespace i0) (Some "+"%char)) as [i1| |] eqn:E1;
        cbn [bind]; [| discriminate | now apply consume_finishes in E1].
      apply consume_length in E1.
      destruct (parse_expr f i1) as [[r i2]| |] eqn:E2; cbn [bind];
        try discriminate.
      apply (proj1 (IH i1)) in E2; [contradiction | lia].
    + rewrite parse_addend_S.
      destruct (parse_multicand f inp) as [[l i0]| |] eqn:E0; cbn [bind];
        try discriminate.
      2:{ apply (proj2 (proj2 (IH inp))) in E0; [contradiction | lia]. }
      apply Lm in E0. cbv zeta.
      pose proof (skip_whitespace_length i0) as L0.
      destruct (is_char (peek (skip_whitespace i0)) "*"); [|discriminate].
      destruct (consume (skip_whitespace i0) (Some "*"%char)) as [i1| |] eqn:E1;
        cbn [bind]; [| discriminate | now apply consume_finishes in E1].
      apply consume_length in E1.
      pose proof (skip_whitespace_length i1) as L1.
      destruct (parse_addend f (skip_whitespace i1)) as [[r i2]| |] eqn:E2;
        cbn [bind]; try discriminate.
      apply (proj1 (proj2 (IH (skip_whitespace i1)))) in E2;
        [contradiction | lia].
    + rewrite parse_multicand_S. cbv zeta.
      pose proof (skip_whitespace_length inp) as L0.
      destruct (is_char (peek (skip_whitespace inp)) "-"
                || isdigit_i (peek (skip_whitespace inp))).
      { unfold parse_num.
        destruct (is_char (peek (skip_whitespace inp)) "-").
        - destruct (consume (skip_whitespace inp) (Some "-"%char))
            as [i1| |] eqn:E1;
            cbn [bind]; [| discriminate | now apply consume_finishes in E1].
          destruct (negb (isdigit_i (peek i1))); [discriminate|].
          destruct (parse_num_loop 0 i1); discriminate.
        - destruct (parse_num_loop 0 (skip_whitespace inp)); discriminate. }
      destruct (is_char (peek (skip_whitespace inp)) "(").
      { destruct (consume (skip_whitespace inp) (Some "("%char)) as [i1| |] eqn:E1;
          cbn [bind]; [| discriminate | now apply consume_finishes in E1].
        apply consume_length in E1.
        destruct (parse_expr f i1) as [[r i2]| |] eqn:E2; cbn [bind];
          try discriminate.
        - destruct (skip_whitespace i2) as [|c i3]; [discriminate|].
          destruct (Ascii.eqb c ")"); discriminate.
        - apply (proj1 (IH i1)) in E2; [contradiction | lia]. }
      destruct (isalpha_i (peek (skip_whitespace inp))); [discriminate|].
      destruct (is_char (peek (skip_whitespace inp)) "_").
      { apply parse_let_with_total; [exact Le|].
        intros i Hi. apply (proj1 (IH i)). lia. }
      destruct (consume (skip_whitespace inp) (peek (skip_whitespace inp)))
        eqn:E1; cbn [bind];
        [discriminate | discriminate | now apply consume_finishes in E1].
Qed.

(** [parse_str] always finishes: it returns an expression or throws. *)
Lemma parse_expr_total :
  forall inp, parse_expr (parse_depth inp) inp <> OutOfFuel.
Proof.
  intros inp. apply (proj1 (parse_total (parse_depth inp) inp)).
  unfold parse_depth. lia.
Qed.

Lemma parse_str_total : forall s, parse_str s <> OutOfFuel.
Proof.
  intros s. unfold parse_str, parse.
  pose proof (parse_expr_total s) as H.
  destruct (parse_expr (parse_depth s) s) as [[e i]| |]; cbn [bind];
    [|discriminate|contradiction].
  destruct (negb (eof (skip_whitespace i))); discriminate.
Qed.

(** ** The parser: white space *)

Lemma skip_whitespace_idem :
  forall inp, skip_whitespace (skip_whitespace inp) = skip_whitespace inp.
Proof.
  induction inp as [|c inp IH]; simpl; [reflexivity|].
  destruct (isspace c) eqn:E; [exact IH|]. simpl. rewrite E. reflexivity.
Qed.

Lemma skip_whitespace_app :
  forall ws inp,
    forallb isspace ws = true ->
    skip_whitespace (ws ++ inp) = skip_whitespace inp.
Proof.
  induction ws as [|c ws IH]; intros inp H; simpl in *; [reflexivity|].
  apply andb_prop in H as [Hc Hws]. rewrite Hc. apply IH, Hws.
Qed.

Lemma skip_whitespace_spaces :
  forall n inp, skip_whitespace (spaces n ++ inp) = skip_whitespace inp.
Proof.
  intros n inp. apply skip_whitespace_app.
  induction n as [|n IH]; simpl; [reflexivity | exact IH].
Qed.

Lemma parse_skip :
  forall fuel inp,
    parse_expr fuel (skip_whitespace inp) = parse_expr fuel inp
    /\ parse_addend fuel (skip_whitespace inp) = parse_addend fuel inp
    /\ parse_multicand fuel (skip_whitespace inp) = parse_multicand fuel inp.
Proof.
  induction fuel as [|f IH]; intros inp; [repeat split; reflexivity|].
  destruct (IH inp) as [IHe [IHa IHm]].
  repeat split.
  - rewrite !parse_expr_S, IHa. reflexivity.
  - rewrite !parse_addend_S, IHm. reflexivity.
  - rewrite !parse_multicand_S. cbv zeta.
    rewrite skip_whitespace_idem. unfold parse_let_with.
    rewrite skip_whitespace_idem. reflexivity.
Qed.

Lemma consume_head :
  forall c inp, consume (c :: inp) (Some c) = Ok inp.
Proof. intros c inp. simpl. rewrite Ascii.eqb_refl. reflexivity. Qed.

Lemma consume_word_app :
  forall w inp, consume_word (w ++ inp) w = Ok inp.
Proof.
  induction w as [|c w IH]; intros inp; simpl; [reflexivity|].
  rewrite Ascii.eqb_refl. apply IH.
Qed.

(** Decide the next test of the parser when the head of the input is a
    known character. *)
Ltac by_head :=
  match goal with
  | |- context [if ?b then _ else _] =>
      first [ change b with true | change b with false ]; cbv iota
  end.

(** ** The parser: derived rules

    One rule per way through [parse_multicand], [parse_addend] and
    [parse_expr]; the depth is hidden in the relations. *)

Lemma parsesW_multicand_num :
  forall inp e rest,
    is_char (peek (skip_whitespace inp)) "-"
    || isdigit_i (peek (skip_whitespace inp)) = true ->
    parse_num (skip_whitespace inp) = Ok (e, rest) ->
    parsesW_multicand inp e rest.
Proof.
  intros inp e rest Hc H. exists rest. split; [|reflexivity].
  exists 1%nat. rewrite parse_multicand_S. cbv zeta. rewrite Hc. exact H.
Qed.

Lemma parsesW_multicand_var :
  forall inp c inp' e rest,
    skip_whitespace inp = c :: inp' ->
    isalpha c = true -> isdigit c = false ->
    Ascii.eqb c "-" = false -> Ascii.eqb c "(" = false ->
    parse_var (c :: inp') = (e, rest) ->
    parsesW_multicand inp e rest.
Proof.
  intros inp c inp' e rest Hs Ha Hd Hm Hp H. exists rest.
  split; [|reflexivity].
  exists 1%nat. rewrite parse_multicand_S. cbv zeta. rewrite Hs.
  cbn [peek hd_error is_char isdigit_i isalpha_i].
  rewrite Hm, Hd, Hp, Ha, H. reflexivity.
Qed.

Lemma parsesW_multicand_paren :
  forall inp inp1 e rest,
    skip_whitespace inp = "("%char :: inp1 ->
    parsesW_expr inp1 e (")"%char :: rest) ->
    parsesW_multicand inp e rest.
Proof.
  intros inp inp1 e rest Hs [rest' [[f Hf] Hr]]. exists rest.
  split; [|reflexivity].
  exists (S f). rewrite parse_multicand_S. cbv zeta. rewrite Hs.
  do 2 by_head. rewrite consume_head. cbn [bind].
  rewrite Hf. cbn [bind]. rewrite Hr. reflexivity.
Qed.

Lemma parsesW_multicand_let :
  forall inp inp1 x inp2 inp3 rhs inp4 inp5 body rest,
    skip_whitespace inp = str "_let" ++ inp1 ->
    parse_var (skip_whitespace inp1) = (VarExpr x, inp2) ->
    skip_whitespace inp2 = "="%char :: inp3 ->
    parsesW_expr inp3 rhs inp4 ->
    skip_whitespace inp4 = str "_in" ++ inp5 ->
    parsesW_expr inp5 body rest ->
    parsesW_multicand inp (LetExpr x rhs body) rest.
Proof.
  intros inp inp1 x inp2 inp3 rhs inp4 inp5 body rest
    Hs Hv He [r4 [[f1 Hf1] Hr4]] Hin [r6 [[f2 Hf2] Hr6]].
  exists r6. split; [|exact Hr6].
  exists (S (Nat.max f1 f2)). rewrite parse_multicand_S. cbv zeta.
  rewrite Hs. do 4 by_head. unfold parse_let_with.
  change (skip_whitespace (str "_let" ++ inp1)) with (str "_let" ++ inp1).
  rewrite consume_word_app. cbn [bind].
  rewrite Hv. unfold to_string. cbn [print].
  rewrite He, consume_head. cbn [bind].
  rewrite (proj1 (parse_skip _ _)).
  rewrite (parse_expr_mono inp3 (Nat.le_max_l f1 f2) Hf1). cbn [bind].
  rewrite Hr4, Hin, consume_word_app. cbn [bind].
  rewrite (proj1 (parse_skip _ _)).
  rewrite (parse_expr_mono inp5 (Nat.le_max_r f1 f2) Hf2). reflexivity.
Qed.

Lemma parsesW_addend_single :
  forall inp e rest,
    parsesW_multicand inp e rest ->
    is_char (peek (skip_whitespace rest)) "*" = false ->
    parsesW_addend inp e rest.
Proof.
  intros inp e rest [r [[f Hf] Hr]] Hc. exists (skip_whitespace r).
  split; [|rewrite skip_whitespace_idem; exact Hr].
  exists (S f). rewrite parse_addend_S, Hf. cbn [bind]. cbv zeta.
  rewrite Hr, Hc. reflexivity.
Qed.

Lemma parsesW_addend_mult :
  forall inp l rest1 rest2 r rest,
    parsesW_multicand inp l rest1 ->
    skip_whitespace rest1 = "*"%char :: rest2 ->
    parsesW_addend rest2 r rest ->
    parsesW_addend inp (MultExpr l r) rest.
Proof.
  intros inp l rest1 rest2 r rest [r1 [[f1 Hf1] Hr1]] Hs [r2 [[f2 Hf2] Hr2]].
  exists r2. split; [|exact Hr2].
  exists (S (Nat.max f1 f2)). rewrite parse_addend_S.
  rewrite (parse_multicand_mono inp (Nat.le_max_l f1 f2) Hf1). cbn [bind].
  cbv zeta. rewrite Hr1, Hs. by_head. rewrite consume_head. cbn [bind].
  rewrite (proj1 (proj2 (parse_skip _ _))).
  rewrite (parse_addend_mono rest2 (Nat.le_max_r f1 f2) Hf2). reflexivity.
Qed.

Lemma parsesW_expr_single :
  forall inp e rest,
    parsesW_addend inp e rest ->
    is_char (peek (skip_whitespace rest)) "+" = false ->
    parsesW_expr inp e rest.
Proof.
  intros inp e rest [r [[f Hf] Hr]] Hc. exists (skip_whitespace r).
  split; [|rewrite skip_whitespace_idem; exact Hr].
  exists (S f). rewrite parse_expr_S, Hf. cbn [bind]. cbv zeta.
  rewrite Hr, Hc. reflexivity.
Qed.

Lemma parsesW_expr_add :
  forall inp l rest1 rest2 r rest,
    parsesW_addend inp l rest1 ->
    skip_whitespace rest1 = "+"%char :: rest2 ->
    parsesW_expr rest2 r rest ->
    parsesW_expr inp (AddExpr l r) rest.
Proof.
  intros inp l rest1 rest2 r rest [r1 [[f1 Hf1] Hr1]] Hs [r2 [[f2 Hf2] Hr2]].
  exists r2. split; [|exact Hr2].
  exists (S (Nat.max f1 f2)). rewrite parse_expr_S.
  rewrite (parse_addend_mono inp (Nat.le_max_l f1 f2) Hf1). cbn [bind].
  cbv zeta. rewrite Hr1, Hs. by_head. rewrite consume_head. cbn [bind].
  rewrite (parse_expr_mono rest2 (Nat.le_max_r f1 f2) Hf2). reflexivity.
Qed.

(** A finished parse of the whole input is what [parse_str] returns. *)
Lemma parse_str_of_parses :
  forall s e rest,
    parsesW_expr s e rest -> skip_whitespace rest = [] ->
    parse_str s = Ok e.
Proof.
  intros s e rest [r [[f Hf] Hr]] Hs.
  unfold parse_str, parse.
  assert (H : parse_expr (parse_depth s) s = Ok (e, r)).
  { pose proof (parse_expr_total s) as Ht.
    rewrite <- (parse_expr_mono s (Nat.le_max_l f (parse_depth s)) Hf).
    symmetry.
    apply (proj1 (parse_mono (Nat.le_max_r f (parse_depth s))));
      [reflexivity | exact Ht]. }
  rewrite H. cbn [bind]. rewrite Hr, Hs. reflexivity.
Qed.

(** ** Characters and machine integers *)

Lemma isalpha_other :
  forall c, isalpha c = true ->
    isdigit c = false /\ isspace c = false
    /\ Ascii.eqb c "-" = false /\ Ascii.eqb c "(" = false.
Proof.
  intros [[] [] [] [] [] [] [] []] H; vm_compute in H; try discriminate;
    vm_compute; auto.
Qed.

Lemma isdigit_other :
  forall c, isdigit c = true ->
    isalpha c = false /\ isspace c = false
    /\ Ascii.eqb c "-" = false /\ (0 <= digit_val c < 10)%Z.
Proof.
  intros [[] [] [] [] [] [] [] []] H; vm_compute in H; try discriminate;
    vm_compute; repeat split; congruence.
Qed.

Lemma digit_char_isdigit :
  forall d, (0 <= d < 10)%Z ->
    isdigit (digit_char d) = true /\ digit_val (digit_char d) = d.
Proof.
  intros d H.
  assert (Hd : (d = 0 \/ d = 1 \/ d = 2 \/ d = 3 \/ d = 4 \/ d = 5 \/ d = 6
                \/ d = 7 \/ d = 8 \/ d = 9)%Z) by lia.
  repeat (destruct Hd as [-> | Hd]; [split; reflexivity|]).
  subst d. split; reflexivity.
Qed.

Lemma int_wrap_range : forall z, in_int_range (int_wrap z).
Proof.
  intros z. unfold in_int_range, int_wrap, int_min, int_max.
  pose proof (Z.mod_pos_bound (z + 2147483648) 4294967296 ltac:(lia)). lia.
Qed.

Lemma int_wrap_id : forall z, in_int_range z -> int_wrap z = z.
Proof.
  intros z [Hlo Hhi]. unfold int_wrap, int_min, int_max in *.
  rewrite Z.mod_small; lia.
Qed.

Lemma int_wrap_eqm :
  forall z, exists k, (int_wrap z = z + k * 4294967296)%Z.
Proof.
  intros z. unfold int_wrap.
  exists (- ((z + 2147483648) / 4294967296))%Z.
  pose proof (Z.div_mod (z + 2147483648) 4294967296 ltac:(lia)). lia.
Qed.

Lemma int_wrap_congr :
  forall a b k, (a = b + k * 4294967296)%Z -> int_wrap a = int_wrap b.
Proof.
  intros a b k ->. unfold int_wrap.
  replace (b + k * 4294967296 + 2147483648)%Z
    with (b + 2147483648 + k * 4294967296)%Z by lia.
  rewrite Z.mod_add by lia. reflexivity.
Qed.

(** ** [parse_num] on a run of digits *)

Lemma parse_num_loop_digits :
  forall ds n rest,
    forallb isdigit ds = true -> no_digit_head rest = true ->
    parse_num_loop n (ds ++ rest) = (accumulate ds n, rest).
Proof.
  induction ds as [|c ds IH]; intros n rest Hds Hrest; simpl.
  - destruct rest as [|c rest]; [reflexivity|].
    unfold no_digit_head in Hrest. simpl in Hrest.
    apply negb_true_iff in Hrest. simpl. rewrite Hrest. reflexivity.
  - simpl in Hds. apply andb_prop in Hds as [Hc Hds]. rewrite Hc.
    apply IH; assumption.
Qed.

Lemma accumulate_wrap :
  forall ds n m,
    int_wrap n = int_wrap m ->
    int_wrap (accumulate ds n)
    = int_wrap (fold_left (fun a c => (a * 10 + digit_val c)%Z) ds m).
Proof.
  induction ds as [|c ds IH]; intros n m H; simpl; [exact H|].
  apply IH.
  destruct (int_wrap_eqm (n * 10 + digit_val c)) as [k1 Hk1].
  destruct (int_wrap_eqm n) as [k2 Hk2].
  destruct (int_wrap_eqm m) as [k3 Hk3].
  apply int_wrap_congr with (k := (k1 + 10 * (k3 - k2))%Z). lia.
Qed.

Lemma accumulate_range :
  forall ds n, in_int_range n -> in_int_range (accumulate ds n).
Proof.
  induction ds as [|c ds IH]; intros n H; simpl; [exact H|].
  apply IH, int_wrap_range.
Qed.

(** The accumulated [int] is the value of the digits, reduced to 32 bits. *)
Lemma accumulate_value :
  forall ds, accumulate ds 0 = int_wrap (decimal_value ds).
Proof.
  intros ds. unfold decimal_value.
  rewrite <- (accumulate_wrap ds 0 0 eq_refl).
  symmetry. apply int_wrap_id, accumulate_range.
  unfold in_int_range, int_min, int_max. lia.
Qed.

Lemma parse_num_unsigned :
  forall c ds rest,
    forallb isdigit (c :: ds) = true -> no_digit_head rest = true ->
    parse_num ((c :: ds) ++ rest)
    = Ok (NumExpr (int_wrap (decimal_value (c :: ds))), rest).
Proof.
  intros c ds rest Hds Hrest. unfold parse_num.
  assert (Hc : isdigit c = true) by (simpl in Hds; apply andb_prop in Hds; tauto).
  destruct (isdigit_other c Hc) as [_ [_ [Hm _]]].
  cbn [app peek hd_error is_char]. rewrite Hm.
  change (c :: ds ++ rest) with ((c :: ds) ++ rest).
  rewrite (parse_num_loop_digits _ 0 rest Hds Hrest), accumulate_value.
  reflexivity.
Qed.

Lemma parse_num_negative :
  forall c ds rest,
    forallb isdigit (c :: ds) = true -> no_digit_head rest = true ->
    parse_num ("-"%char :: (c :: ds) ++ rest)
    = Ok (NumExpr (int_wrap (- decimal_value (c :: ds))), rest).
Proof.
  intros c ds rest Hds Hrest. unfold parse_num.
  assert (Hc : isdigit c = true) by (simpl in Hds; apply andb_prop in Hds; tauto).
  cbn [peek hd_error is_char]. by_head. rewrite consume_head. cbn [bind].
  cbn [app peek hd_error isdigit_i]. rewrite Hc. cbn [negb].
  change (c :: ds ++ rest) with ((c :: ds) ++ rest).
  rewrite (parse_num_loop_digits _ 0 rest Hds Hrest), accumulate_value.
  do 3 f_equal.
  destruct (int_wrap_eqm (decimal_value (c :: ds))) as [k Hk].
  apply int_wrap_congr with (k := (- k)%Z). lia.
Qed.

(** ** [std::to_string] of an [int] and back *)

Lemma dec_digits_spec :
  forall fuel n,
    (0 < fuel)%nat -> (0 <= n < 2 ^ Z.of_nat fuel)%Z ->
    dec_digits fuel n <> []
    /\ Forall (fun d => 0 <= d < 10)%Z (dec_digits fuel n)
    /\ digits_value (dec_digits fuel n) = n.
Proof.
  induction fuel as [|f IH]; intros n Hf Hn; [lia|].
  simpl. destruct (n <? 10)%Z eqn:E.
  - apply Z.ltb_lt in E.
    repeat split; [discriminate | | cbn [digits_value]; lia].
    constructor; [lia | constructor].
  - apply Z.ltb_ge in E.
    rewrite Nat2Z.inj_succ, Z.pow_succ_r in Hn by lia.
    assert (Hq : (1 <= n / 10)%Z) by (apply Z.div_le_lower_bound; lia).
    assert (Hq' : (n / 10 < 2 ^ Z.of_nat f)%Z)
      by (apply Z.div_lt_upper_bound; lia).
    assert (Hf' : (0 < f)%nat).
    { destruct f; [simpl in Hq'; lia | lia]. }
    destruct (IH (n / 10)%Z Hf' ltac:(lia)) as [_ [Hall Hval]].
    repeat split; [discriminate | |].
    + constructor; [|exact Hall].
      pose proof (Z.mod_pos_bound n 10 ltac:(lia)). lia.
    + cbn [digits_value]. rewrite Hval.
      pose proof (Z.div_mod n 10 ltac:(lia)). lia.
Qed.

Lemma digits_as_text :
  forall l,
    Forall (fun d => 0 <= d < 10)%Z l ->
    forallb isdigit (map digit_char (rev l)) = true
    /\ decimal_value (map digit_char (rev l)) = digits_value l.
Proof.
  unfold decimal_value.
  induction l as [|d l IH]; intros H; [split; reflexivity|].
  inversion H as [|? ? Hd Hl]; subst.
  destruct (IH Hl) as [IH1 IH2].
  destruct (digit_char_isdigit Hd) as [D1 D2].
  simpl rev. rewrite map_app. split.
  - rewrite forallb_app, IH1. cbn [map forallb]. rewrite D1. reflexivity.
  - rewrite fold_left_app, IH2. cbn [map fold_left digits_value].
    rewrite D2. lia.
Qed.

Lemma digits_text_spec :
  forall n, (0 <= n)%Z ->
    exists c ds,
      digits_text n = c :: ds
      /\ forallb isdigit (c :: ds) = true
      /\ decimal_value (c :: ds) = n.
Proof.
  intros n Hn. unfold digits_text.
  assert (Hb : (0 <= n < 2 ^ Z.of_nat (S (Z.to_nat (Z.log2 n))))%Z).
  { split; [exact Hn|].
    rewrite Nat2Z.inj_succ, Z2Nat.id by apply Z.log2_nonneg.
    destruct (Z.eq_dec n 0) as [->|Hz]; [reflexivity|].
    apply Z.log2_spec. lia. }
  destruct (dec_digits_spec (fuel := S (Z.to_nat (Z.log2 n))) ltac:(lia) Hb)
    as [Hne [Hall Hval]].
  destruct (digits_as_text Hall) as [T1 T2].
  destruct (map digit_char (rev (dec_digits (S (Z.to_nat (Z.log2 n))) n)))
    as [|c ds] eqn:E.
  - exfalso. apply Hne.
    apply (f_equal (@length ascii)) in E.
    rewrite length_map, length_rev in E.
    destruct (dec_digits _ n); [reflexivity | discriminate].
  - exists c, ds. repeat split; [exact T1 | congruence].
Qed.

(** [parse_num] reads back what [std::to_string] wrote. *)
Lemma parse_num_int_to_string :
  forall n rest,
    in_int_range n -> no_digit_head rest = true ->
    parse_num (int_to_string n ++ rest) = Ok (NumExpr n, rest).
Proof.
  intros n rest Hn Hrest. unfold int_to_string.
  destruct (n <? 0)%Z eqn:E.
  - apply Z.ltb_lt in E.
    destruct (digits_text_spec (n := - n) ltac:(lia)) as [c [ds [-> [Hd Hv]]]].
    change (("-"%char :: c :: ds) ++ rest)
      with ("-"%char :: (c :: ds) ++ rest).
    rewrite (parse_num_negative c ds rest Hd Hrest), Hv.
    rewrite Z.opp_involutive, (int_wrap_id Hn). reflexivity.
  - apply Z.ltb_ge in E.
    destruct (digits_text_spec E) as [c [ds [-> [Hd Hv]]]].
    rewrite (parse_num_unsigned c ds rest Hd Hrest), Hv, (int_wrap_id Hn).
    reflexivity.
Qed.

(** The first character written for a number starts a number and is not
    white space. *)
Lemma int_to_string_head :
  forall n rest,
    skip_whitespace (int_to_string n ++ rest) = int_to_string n ++ rest
    /\ is_char (peek (int_to_string n ++ rest)) "-"
       || isdigit_i (peek (int_to_string n ++ rest)) = true.
Proof.
  intros n rest. unfold int_to_string.
  destruct (n <? 0)%Z eqn:E.
  - split; reflexivity.
  - apply Z.ltb_ge in E.
    destruct (digits_text_spec E) as [c [ds [-> [Hd _]]]].
    simpl in Hd. apply andb_prop in Hd as [Hc _].
    destruct (isdigit_other c Hc) as [_ [Hs _]].
    simpl. rewrite Hs, Hc. split; [reflexivity | apply orb_true_r].
Qed.

(** ** Structural equality *)

Lemma text_eqb_refl : forall a, text_eqb a a = true.
Proof.
  intros a. unfold text_eqb.
  destruct (list_eq_dec ascii_dec a a); [reflexivity | contradiction].
Qed.

Lemma equals_refl : forall e, equals e e = true.
Proof.
  induction e; simpl;
    repeat match goal with H : equals _ _ = true |- _ => rewrite H; clear H end;
    rewrite ?text_eqb_refl, ?Z.eqb_refl, ?Bool.eqb_reflx; reflexivity.
Qed.

(** ** Reading back the canonical form *)

Lemma parsesW_expr_skip :
  forall inp inp' e rest,
    parsesW_expr inp' e rest ->
    skip_whitespace inp = skip_whitespace inp' ->
    parsesW_expr inp e rest.
Proof.
  intros inp inp' e rest [r [[f Hf] Hr]] Hs. exists r. split; [|exact Hr].
  exists f. rewrite <- (proj1 (parse_skip f inp)), Hs.
  rewrite (proj1 (parse_skip f inp')). exact Hf.
Qed.

Lemma parsesW_addend_skip :
  forall inp inp' e rest,
    parsesW_addend inp' e rest ->
    skip_whitespace inp = skip_whitespace inp' ->
    parsesW_addend inp e rest.
Proof.
  intros inp inp' e rest [r [[f Hf] Hr]] Hs. exists r. split; [|exact Hr].
  exists f. rewrite <- (proj1 (proj2 (parse_skip f inp))), Hs.
  rewrite (proj1 (proj2 (parse_skip f inp'))). exact Hf.
Qed.

(** A multicand followed by neither [*] nor [+] is an addend and an
    expression. *)
Lemma parsesW_expr_multicand :
  forall inp e rest,
    parsesW_multicand inp e rest ->
    is_char (peek (skip_whitespace rest)) "*" = false ->
    is_char (peek (skip_whitespace rest)) "+" = false ->
    parsesW_expr inp e rest.
Proof.
  intros inp e rest H Hm Hp.
  apply parsesW_expr_single; [|exact Hp].
  apply parsesW_addend_single; assumption.
Qed.

Lemma no_alnum_no_digit :
  forall rest, no_alnum_head rest = true -> no_digit_head rest = true.
Proof.
  intros rest H. unfold no_alnum_head in H. apply andb_prop in H. tauto.
Qed.

Lemma parse_var_loop_name :
  forall x rest,
    forallb isalpha x = true -> isalpha_i (peek rest) = false ->
    parse_var_loop (x ++ rest) = (x, rest).
Proof.
  induction x as [|c x IH]; intros rest Hx Hrest; simpl.
  - destruct rest as [|c rest]; [reflexivity|]. simpl in *.
    rewrite Hrest. reflexivity.
  - simpl in Hx. apply andb_prop in Hx as [Hc Hx]. rewrite Hc.
    rewrite (IH rest Hx Hrest). reflexivity.
Qed.

Lemma parse_var_name :
  forall x rest,
    forallb isalpha x = true -> isalpha_i (peek rest) = false ->
    parse_var (x ++ rest) = (VarExpr x, rest).
Proof.
  intros x rest Hx Hrest. unfold parse_var.
  rewrite (parse_var_loop_name x rest Hx Hrest). reflexivity.
Qed.

(** White space is not skipped over a name, nor over what follows an
    empty name if that is not white space. *)
Lemma skip_whitespace_name :
  forall x c rest,
    forallb isalpha x = true -> isspace c = false ->
    skip_whitespace (x ++ c :: rest) = x ++ c :: rest.
Proof.
  intros [|d x] c rest Hx Hc; simpl.
  - rewrite Hc. reflexivity.
  - simpl in Hx. apply andb_prop in Hx as [Hd _].
    destruct (isalpha_other d Hd) as [_ [Hs _]]. rewrite Hs. reflexivity.
Qed.

Lemma parsesW_multicand_name :
  forall x rest,
    x <> [] -> forallb isalpha x = true -> no_alnum_head rest = true ->
    parsesW_multicand (x ++ rest) (VarExpr x) rest.
Proof.
  intros x rest Hne Hx Hrest.
  assert (Ha : isalpha_i (peek rest) = false).
  { unfold no_alnum_head in Hrest. apply andb_prop in Hrest as [_ H].
    apply negb_true_iff in H. exact H. }
  pose proof (parse_var_name x rest Hx Ha) as Hv.
  destruct x as [|c x]; [contradiction|].
  simpl in Hx. apply andb_prop in Hx as [Hc Hx].
  destruct (isalpha_other c Hc) as [Hd [Hs [Hm Hp]]].
  apply parsesW_multicand_var with (c := c) (inp' := x ++ rest); auto.
  simpl. rewrite Hs. reflexivity.
Qed.

Lemma parsesW_multicand_int :
  forall n rest,
    in_int_range n -> no_alnum_head rest = true ->
    parsesW_multicand (int_to_string n ++ rest) (NumExpr n) rest.
Proof.
  intros n rest Hn Hrest.
  destruct (int_to_string_head n rest) as [Hs Hh].
  apply parsesW_multicand_num; rewrite Hs; [exact Hh|].
  apply parse_num_int_to_string; [exact Hn|].
  apply no_alnum_no_digit, Hrest.
Qed.

(** The text written by [print] for a parseable expression is read back
    by [parse_multicand] as that expression, whatever follows it (other
    than a letter or a digit). *)
Lemma print_parses :
  forall e, parseable e ->
    forall rest, no_alnum_head rest = true ->
      parsesW_multicand (print e ++ rest) e rest.
Proof.
  induction e as [n|x|l IHl r IHr|l IHl r IHr|x r IHr b IHb| | | | | ];
    intros He rest Hrest; cbn [parseable] in He; try contradiction;
    cbn [print].
  - apply parsesW_multicand_int; assumption.
  - destruct He. apply parsesW_multicand_name; assumption.
  - destruct He as [Hl Hr]. repeat rewrite <- app_assoc.
    apply parsesW_multicand_paren
      with (inp1 := print l ++ str "+" ++ print r ++ str ")" ++ rest);
      [reflexivity|].
    apply parsesW_expr_add
      with (rest1 := str "+" ++ print r ++ str ")" ++ rest)
           (rest2 := print r ++ str ")" ++ rest); [|reflexivity|].
    + apply parsesW_addend_single; [|reflexivity].
      apply IHl; [exact Hl | reflexivity].
    + apply parsesW_expr_multicand; [|reflexivity|reflexivity].
      apply IHr; [exact Hr | reflexivity].
  - destruct He as [Hl Hr]. repeat rewrite <- app_assoc.
    apply parsesW_multicand_paren
      with (inp1 := print l ++ str "*" ++ print r ++ str ")" ++ rest);
      [reflexivity|].
    apply parsesW_expr_single; [|reflexivity].
    apply parsesW_addend_mult
      with (rest1 := str "*" ++ print r ++ str ")" ++ rest)
           (rest2 := print r ++ str ")" ++ rest); [|reflexivity|].
    + apply IHl; [exact Hl | reflexivity].
    + apply parsesW_addend_single; [|reflexivity].
      apply IHr; [exact Hr | reflexivity].
  - destruct He as [Hx [Hr Hb]]. repeat rewrite <- app_assoc.
    apply parsesW_multicand_paren
      with (inp1 := str "_let " ++ x ++ str "=" ++ print r ++ str " _in "
                      ++ print b ++ str ")" ++ rest);
      [reflexivity|].
    apply parsesW_expr_multicand; [|reflexivity|reflexivity].
    apply parsesW_multicand_let
      with (inp1 := str " " ++ x ++ str "=" ++ print r ++ str " _in "
                      ++ print b ++ str ")" ++ rest)
           (inp2 := str "=" ++ print r ++ str " _in " ++ print b
                      ++ str ")" ++ rest)
           (inp3 := print r ++ str " _in " ++ print b ++ str ")" ++ rest)
           (inp4 := str " _in " ++ print b ++ str ")" ++ rest)
           (inp5 := str " " ++ print b ++ str ")" ++ rest).
    + reflexivity.
    + change (skip_whitespace (str " " ++ x ++ str "=" ++ print r
                ++ str " _in " ++ print b ++ str ")" ++ rest))
        with (skip_whitespace (x ++ "="%char :: print r
                ++ str " _in " ++ print b ++ str ")" ++ rest)).
      rewrite skip_whitespace_name by (exact Hx || reflexivity).
      apply parse_var_name; [exact Hx | reflexivity].
    + reflexivity.
    + apply parsesW_expr_multicand; [|reflexivity|reflexivity].
      apply IHr; [exact Hr | reflexivity].
    + reflexivity.
    + apply parsesW_expr_skip with (inp' := print b ++ str ")" ++ rest);
        [|reflexivity].
      apply parsesW_expr_multicand; [|reflexivity|reflexivity].
      apply IHb; [exact Hb | reflexivity].
Qed.

(** ** Round trip through the canonical form *)

(** C1, as the code has it: for every expression the parser can build
    (numbers in the [int] range, variables with a non-empty alphabetic
    name, sums, products and [_let] with an alphabetic name), parsing the
    canonical rendering gives an equal tree. *)
Theorem to_string_roundtrip :
  forall e, parseable e ->
    exists e', parse_str (to_string e) = Ok e' /\ equals e' e = true.
Proof.
  intros e He. exists e. split; [|apply equals_refl].
  apply parse_str_of_parses with (rest := []); [|reflexivity].
  apply parsesW_expr_multicand; [|reflexivity|reflexivity].
  rewrite <- (app_nil_r (to_string e)).
  apply print_parses; [exact He | reflexivity].
Qed.

Lemma to_string_roundtrip_witness :
  parseable sample_let
  /\ exists e', parse_str (to_string sample_let) = Ok e'
                /\ equals e' sample_let = true.
Proof.
  assert (H : parseable sample_let).
  { unfold sample_let, parseable, in_int_range, int_min, int_max.
    repeat split; try lia; try reflexivity; discriminate. }
  split; [exact H | apply (to_string_roundtrip sample_let H)].
Defined.

(** C1 as stated fails: the canonical renderings of a boolean, of an
    equality and of a conditional are rejected by the parser. *)
Lemma to_string_roundtrip_fails :
  ~ (exists e', parse_str (to_string (BoolExpr true)) = Ok e'
                /\ equals e' (BoolExpr true) = true)
  /\ parse_str (to_string (BoolExpr true)) = Throw "consume mismatch"%string
  /\ parse_str (to_string (EqExpr (NumExpr 1) (NumExpr 2)))
     = Throw "missing close parenthesis"%string
  /\ parse_str (to_string (IfExpr (BoolExpr true) (NumExpr 1) (NumExpr 2)))
     = Throw "consume mismatch"%string.
Proof.
  split; [|repeat split; vm_compute; reflexivity].
  intros [e' [H _]]. vm_compute in H. discriminate.
Qed.

(** C10: [EqExpr(l, r).to_string()] is ["(" + r.to_string() + "==" +
    l.to_string() + ")"]: the right operand of the node is printed to the
    left of [==]. *)
Theorem EqExpr_to_string_swapped :
  forall l r,
    to_string (EqExpr l r)
    = str "(" ++ to_string r ++ str "==" ++ to_string l ++ str ")".
Proof. intros l r. reflexivity. Qed.

(** ** Precedence and associativity *)

Lemma operand_parses :
  forall a rest,
    parseable a -> no_alnum_head rest = true ->
    parsesW_multicand (to_string a ++ rest) a rest.
Proof. intros a rest Ha Hr. apply print_parses; assumption. Qed.

(** C3: for all operands [a], [b], [c] (written in canonical form),
    [a+b+c] parses as [Add(a, Add(b, c))], [a*b*c] as
    [Mult(a, Mult(b, c))], and multiplication binds tighter than addition
    on either side; [parse_str("1+2*3").to_string()] is ["(1+(2*3))"] and
    [parse_str("(1+2)*3").to_string()] is ["((1+2)*3)"]. *)
Theorem parse_precedence_associativity :
  (forall a b c, parseable a -> parseable b -> parseable c ->
     parse_str (to_string a ++ str "+" ++ to_string b ++ str "+" ++ to_string c)
     = Ok (AddExpr a (AddExpr b c))
     /\ parse_str
          (to_string a ++ str "*" ++ to_string b ++ str "*" ++ to_string c)
        = Ok (MultExpr a (MultExpr b c))
     /\ parse_str
          (to_string a ++ str "+" ++ to_string b ++ str "*" ++ to_string c)
        = Ok (AddExpr a (MultExpr b c))
     /\ parse_str
          (to_string a ++ str "*" ++ to_string b ++ str "+" ++ to_string c)
        = Ok (AddExpr (MultExpr a b) c))
  /\ (exists e, parse_str (str "1+2*3") = Ok e
                /\ to_string e = str "(1+(2*3))")
  /\ (exists e, parse_str (str "(1+2)*3") = Ok e
                /\ to_string e = str "((1+2)*3)").
Proof.
  split; [|split; eexists; split; vm_compute; reflexivity].
  intros a b c Ha Hb Hc.
  assert (Pc : parsesW_multicand (to_string c) c []).
  { rewrite <- (app_nil_r (to_string c)).
    apply operand_parses; [exact Hc | reflexivity]. }
  repeat split; apply parse_str_of_parses with (rest := []);
    try reflexivity.
  - apply parsesW_expr_add
      with (rest1 := str "+" ++ to_string b ++ str "+" ++ to_string c)
           (rest2 := to_string b ++ str "+" ++ to_string c); [|reflexivity|].
    + apply parsesW_addend_single; [|reflexivity].
      apply operand_parses; [exact Ha | reflexivity].
    + apply parsesW_expr_add
        with (rest1 := str "+" ++ to_string c) (rest2 := to_string c);
        [|reflexivity|].
      * apply parsesW_addend_single; [|reflexivity].
        apply operand_parses; [exact Hb | reflexivity].
      * apply parsesW_expr_multicand; [exact Pc|reflexivity|reflexivity].
  - apply parsesW_expr_single; [|reflexivity].
    apply parsesW_addend_mult
      with (rest1 := str "*" ++ to_string b ++ str "*" ++ to_string c)
           (rest2 := to_string b ++ str "*" ++ to_string c); [|reflexivity|].
    + apply operand_parses; [exact Ha | reflexivity].
    + apply parsesW_addend_mult
        with (rest1 := str "*" ++ to_string c) (rest2 := to_string c);
        [|reflexivity|].
      * apply operand_parses; [exact Hb | reflexivity].
      * apply parsesW_addend_single; [exact Pc|reflexivity].
  - apply parsesW_expr_add
      with (rest1 := str "+" ++ to_string b ++ str "*" ++ to_string c)
           (rest2 := to_string b ++ str "*" ++ to_string c); [|reflexivity|].
    + apply parsesW_addend_single; [|reflexivity].
      apply operand_parses; [exact Ha | reflexivity].
    + apply parsesW_expr_single; [|reflexivity].
      apply parsesW_addend_mult
        with (rest1 := str "*" ++ to_string c) (rest2 := to_string c);
        [|reflexivity|].
      * apply operand_parses; [exact Hb | reflexivity].
      * apply parsesW_addend_single; [exact Pc|reflexivity].
  - apply parsesW_expr_add
      with (rest1 := str "+" ++ to_string c) (rest2 := to_string c);
      [|reflexivity|].
    + apply parsesW_addend_mult
        with (rest1 := str "*" ++ to_string b ++ str "+" ++ to_string c)
             (rest2 := to_string b ++ str "+" ++ to_string c);
        [|reflexivity|].
      * apply operand_parses; [exact Ha | reflexivity].
      * apply parsesW_addend_single; [|reflexivity].
        apply operand_parses; [exact Hb | reflexivity].
    + apply parsesW_expr_multicand; [exact Pc|reflexivity|reflexivity].
Qed.

Lemma parse_precedence_associativity_witness :
  (parseable (NumExpr 7) /\ parseable (VarExpr (str "k"))
   /\ parseable sample_let)
  /\ parse_str (to_string (NumExpr 7) ++ str "+" ++ to_string (VarExpr (str "k"))
                  ++ str "+" ++ to_string sample_let)
     = Ok (AddExpr (NumExpr 7) (AddExpr (VarExpr (str "k")) sample_let)).
Proof.
  assert (H7 : parseable (NumExpr 7)).
  { unfold parseable, in_int_range, int_min, int_max. lia. }
  assert (Hk : parseable (VarExpr (str "k"))).
  { split; [discriminate | reflexivity]. }
  assert (Hs : parseable sample_let).
  { unfold sample_let, parseable, in_int_range, int_min, int_max.
    repeat split; try lia; try reflexivity; discriminate. }
  split; [exact (conj H7 (conj Hk Hs))|].
  apply (proj1 (proj1 parse_precedence_associativity (NumExpr 7)
                  (VarExpr (str "k")) sample_let H7 Hk Hs)).
Defined.

(** ** The whole-input contract of [parse] *)

Lemma parse_expr_at_depth :
  forall fuel s r,
    parse_expr fuel s = r -> r <> OutOfFuel ->
    parse_expr (parse_depth s) s = r.
Proof.
  intros fuel s r H Hr.
  pose proof (parse_expr_total s) as Ht.
  rewrite <- (proj1 (parse_mono (Nat.le_max_l fuel (parse_depth s))) s r H Hr).
  symmetry.
  apply (proj1 (parse_mono (Nat.le_max_r fuel (parse_depth s))));
    [reflexivity | exact Ht].
Qed.

(** C7: [parse_str] always finishes; it returns an expression exactly when
    the input is one expression followed by nothing but white space; when
    something else is left after the first expression it throws "invalid
    input", and when the expression itself is malformed it throws the
    parser's error; so no partial result is ever returned.  In particular
    [parse_str("1+")] and [parse_str("(1+2")] throw. *)
Theorem parse_whole_input :
  (forall s,
     parse_str s <> OutOfFuel
     /\ (forall e rest,
           parses_expr s e rest -> skip_whitespace rest = [] ->
           parse_str s = Ok e)
     /\ (forall e rest,
           parses_expr s e rest -> skip_whitespace rest <> [] ->
           parse_str s = Throw "invalid input"%string)
     /\ (forall fuel msg,
           parse_expr fuel s = Throw msg -> parse_str s = Throw msg)
     /\ (forall e,
           parse_str s = Ok e ->
           exists rest, parses_expr s e rest /\ skip_whitespace rest = []))
  /\ parse_str (str "1+") = Throw "invalid input"%string
  /\ parse_str (str "(1+2") = Throw "missing close parenthesis"%string.
Proof.
  split; [|split; vm_compute; reflexivity].
  intros s. split; [apply parse_str_total|]. repeat split.
  - intros e rest [f Hf] Hr. unfold parse_str, parse.
    rewrite (parse_expr_at_depth f s Hf ltac:(discriminate)). cbn [bind].
    rewrite Hr. reflexivity.
  - intros e rest [f Hf] Hr. unfold parse_str, parse.
    rewrite (parse_expr_at_depth f s Hf ltac:(discriminate)). cbn [bind].
    destruct (skip_whitespace rest); [contradiction | reflexivity].
  - intros f msg Hf. unfold parse_str, parse.
    rewrite (parse_expr_at_depth f s Hf ltac:(discriminate)). reflexivity.
  - intros e H. unfold parse_str, parse in H.
    destruct (parse_expr (parse_depth s) s) as [[e' rest]| |] eqn:E;
      cbn [bind] in H; try discriminate.
    exists rest. destruct (skip_whitespace rest); [|discriminate].
    cbn in H. injection H as ->.
    split; [exists (parse_depth s); exact E | reflexivity].
Qed.

Lemma parse_whole_input_witness :
  (parses_expr (str "1 2") (NumExpr 1) (str "2")
   /\ skip_whitespace (str "2") <> [])
  /\ parse_str (str "1 2") = Throw "invalid input"%string.
Proof.
  assert (H1 : parses_expr (str "1 2") (NumExpr 1) (str "2")).
  { exists 3%nat. vm_compute. reflexivity. }
  assert (H2 : skip_whitespace (str "2") <> []).
  { vm_compute. discriminate. }
  split; [exact (conj H1 H2)|].
  apply (proj1 (proj2 (proj2 (proj1 parse_whole_input (str "1 2"))))
           (NumExpr 1) (str "2") H1 H2).
Defined.

(** ** Number literals *)

(** C9 as stated fails for a literal too large for an [int]: the result is
    not the number the digits denote. *)
Lemma parse_num_overflow :
  decimal_value (str "4294967296") = 4294967296%Z
  /\ forallb isdigit (str "4294967296") = true
  /\ parse_num (str "4294967296")
     <> Ok (NumExpr (decimal_value (str "4294967296")), []).
Proof.
  repeat split; try reflexivity. vm_compute. discriminate.
Qed.

(** C9, as the code has it: a number literal is an optional [-] and at
    least one digit.  A [-] that no digit follows makes the parse throw
    "not a num".  For a run of digits (followed by something that is not a
    digit) whose signed value fits an [int], [parse_num] returns [Num] of
    that value, with and without the leading [-]. *)
Theorem parse_num_literal :
  (forall inp rest,
     skip_whitespace inp = "-"%char :: rest ->
     isdigit_i (peek rest) = false ->
     parse_str inp = Throw "not a num"%string)
  /\ (forall c ds rest,
        forallb isdigit (c :: ds) = true -> no_digit_head rest = true ->
        (in_int_range (decimal_value (c :: ds)) ->
         parse_num ((c :: ds) ++ rest)
         = Ok (NumExpr (decimal_value (c :: ds)), rest))
        /\ (in_int_range (- decimal_value (c :: ds)) ->
            parse_num ("-"%char :: (c :: ds) ++ rest)
            = Ok (NumExpr (- decimal_value (c :: ds)), rest))).
Proof.
  split.
  - intros inp rest Hs Hd.
    assert (H : parse_expr 3 inp = Throw "not a num"%string).
    { rewrite parse_expr_S, parse_addend_S, parse_multicand_S. cbv zeta.
      rewrite Hs. by_head. unfold parse_num. by_head.
      rewrite consume_head. cbn [bind]. rewrite Hd. reflexivity. }
    unfold parse_str, parse.
    rewrite (parse_expr_at_depth 3 inp H ltac:(discriminate)). reflexivity.
  - intros c ds rest Hds Hrest. split; intros Hv.
    + rewrite (parse_num_unsigned c ds rest Hds Hrest), (int_wrap_id Hv).
      reflexivity.
    + rewrite (parse_num_negative c ds rest Hds Hrest), (int_wrap_id Hv).
      reflexivity.
Qed.

Lemma parse_num_literal_witness :
  (forallb isdigit (str "2147483648") = true
   /\ no_digit_head (str " ") = true
   /\ in_int_range (- decimal_value (str "2147483648")))
  /\ parse_num (str "-2147483648 ")
     = Ok (NumExpr (- decimal_value (str "2147483648")), str " ").
Proof.
  assert (H1 : forallb isdigit (str "2147483648") = true) by reflexivity.
  assert (H2 : no_digit_head (str " ") = true) by reflexivity.
  assert (H3 : in_int_range (- decimal_value (str "2147483648"))).
  { vm_compute. split; discriminate. }
  split; [exact (conj H1 (conj H2 H3))|].
  apply (proj2 (proj2 parse_num_literal "2"%char (str "147483648") (str " ")
                  H1 H2) H3).
Defined.

(** ** Evaluation of parsed programs *)

(** C5: [LetExpr::interp] evaluates [rhs] under the environment it is
    given (the empty one when none is supplied), then [body] under that
    environment extended with [lhs] bound to the value of [rhs]; an error
    in [rhs] is the outcome; the binding is not visible in [rhs] itself;
    and an inner binding shadows an outer one of the same name:
    [parse_str("_let x=1 _in _let x=2 _in x").interp()] is [NumVal(2)]. *)
Theorem LetExpr_scoping_shadowing :
  forall funval_equals,
    (forall lhs rhs body env rhsValue r,
       evaluates funval_equals rhs (Some (or_empty env)) (Ok rhsValue) ->
       (evaluates funval_equals (LetExpr lhs rhs body) env r <->
        evaluates funval_equals body
          (Some (ExtendedEnv lhs rhsValue (or_empty env))) r))
    /\ (forall lhs rhs body env err,
          evaluates funval_equals rhs (Some (or_empty env)) (Throw err) ->
          evaluates funval_equals (LetExpr lhs rhs body) env (Throw err))
    /\ evaluates funval_equals
         (LetExpr (str "x") (VarExpr (str "x")) (VarExpr (str "x"))) None
         (Throw UnboundVariableError)
    /\ (exists e, parse_str shadow_text = Ok e
                  /\ e = shadow_program
                  /\ evaluates funval_equals e None (Ok (NumVal 2))).
Proof.
  intros fe. split; [|split; [|split]].
  - intros lhs rhs body env rhsValue r H.
    apply LetExpr_interp_body; exact H.
  - intros lhs rhs body env err H.
    apply LetExpr_interp_rhs_error; exact H.
  - split; [discriminate | exists 2%nat; reflexivity].
  - exists shadow_program.
    split; [vm_compute; reflexivity | split; [reflexivity|]].
    split; [discriminate | exists 3%nat; reflexivity].
Qed.

Lemma LetExpr_scoping_shadowing_witness :
  evaluates (fun _ _ _ _ _ _ => false) (NumExpr 1) (Some (or_empty None))
    (Ok (NumVal 1))
  /\ (evaluates (fun _ _ _ _ _ _ => false)
        (LetExpr (str "x") (NumExpr 1) (VarExpr (str "x"))) None
        (Ok (NumVal 1))
      <-> evaluates (fun _ _ _ _ _ _ => false) (VarExpr (str "x"))
            (Some (ExtendedEnv (str "x") (NumVal 1) (or_empty None)))
            (Ok (NumVal 1))).
Proof.
  assert (H : evaluates (fun _ _ _ _ _ _ => false) (NumExpr 1)
                (Some (or_empty None)) (Ok (NumVal 1))).
  { split; [discriminate | exists 1%nat; reflexivity]. }
  split; [exact H|].
  apply (proj1 (LetExpr_scoping_shadowing (fun _ _ _ _ _ _ => false))
           (str "x") (NumExpr 1) (VarExpr (str "x")) None (NumVal 1)
           (Ok (NumVal 1)) H).
Defined.

Lemma IfExpr_interp_permissive_witness :
  evaluates (fun _ _ _ _ _ _ => false) (NumExpr 5) (Some (or_empty None))
    (Ok (NumVal 5))
  /\ (NumVal 5 <> BoolVal true ->
      (evaluates (fun _ _ _ _ _ _ => false)
         (IfExpr (NumExpr 5) (NumExpr 1) (NumExpr 2)) None (Ok (NumVal 2))
       <-> evaluates (fun _ _ _ _ _ _ => false) (NumExpr 2)
             (Some (or_empty None)) (Ok (NumVal 2)))).
Proof.
  assert (H : evaluates (fun _ _ _ _ _ _ => false) (NumExpr 5)
                (Some (or_empty None)) (Ok (NumVal 5))).
  { split; [discriminate | exists 1%nat; reflexivity]. }
  split; [exact H|].
  apply (proj2 (@IfExpr_interp_permissive (fun _ _ _ _ _ _ => false)
                  (NumExpr 5) (NumExpr 1) (NumExpr 2) None (NumVal 5)
                  (Ok (NumVal 2)) H)).
Defined.

(** C4 as stated fails: the parser rejects the text, which uses [_fun] and
    an application, so there is no tree to evaluate. *)
Lemma closure_text_rejected :
  parse_str closure_text = Throw "consume mismatch"%string
  /\ ~ (exists funval_equals e,
          parse_str closure_text = Ok e
          /\ evaluates funval_equals e None (Ok (NumVal 4))).
Proof.
  split; [vm_compute; reflexivity|].
  intros [fe [e [H _]]]. vm_compute in H. discriminate.
Qed.

(** C4, as the code has it: [parse_str] throws on the text, because
    [parse.cpp] has no [_fun] and no application.  The tree the text
    denotes, [closure_program], evaluates with no environment supplied to
    [NumVal(4)]: a function literal evaluates to a closure over the
    environment in force at its creation, and a call evaluates the body
    under that captured environment extended with the argument, so the [x]
    of the closure is the 1 of its definition and not the later 2. *)
Theorem closure_capture :
  forall funval_equals,
    parse_str closure_text = Throw "consume mismatch"%string
    /\ evaluates funval_equals closure_program None (Ok (NumVal 4))
    /\ (forall formal_arg body env,
          evaluates funval_equals (FunExpr formal_arg body) env
            (Ok (FunVal formal_arg body (or_empty env))))
    /\ (forall to_be_called actual_arg env formal_arg body captured a r,
          evaluates funval_equals to_be_called (Some (or_empty env))
            (Ok (FunVal formal_arg body captured)) ->
          evaluates funval_equals actual_arg (Some (or_empty env)) (Ok a) ->
          (evaluates funval_equals (CallExpr to_be_called actual_arg) env r
           <-> evaluates funval_equals body
                 (Some (ExtendedEnv formal_arg a captured)) r)).
Proof.
  intros fe. split; [vm_compute; reflexivity|]. split; [|split].
  - split; [discriminate | exists 6%nat; reflexivity].
  - apply FunExpr_interp_captures.
  - apply CallExpr_interp_closure.
Qed.

Lemma closure_capture_witness :
  (evaluates (fun _ _ _ _ _ _ => false)
     (FunExpr (str "y") (VarExpr (str "x")))
     (Some (or_empty (Some (ExtendedEnv (str "x") (NumVal 1) EmptyEnv))))
     (Ok (FunVal (str "y") (VarExpr (str "x"))
            (ExtendedEnv (str "x") (NumVal 1) EmptyEnv)))
   /\ evaluates (fun _ _ _ _ _ _ => false) (NumExpr 3)
        (Some (or_empty (Some (ExtendedEnv (str "x") (NumVal 1) EmptyEnv))))
        (Ok (NumVal 3)))
  /\ (evaluates (fun _ _ _ _ _ _ => false)
        (CallExpr (FunExpr (str "y") (VarExpr (str "x"))) (NumExpr 3))
        (Some (ExtendedEnv (str "x") (NumVal 1) EmptyEnv)) (Ok (NumVal 1))
      <-> evaluates (fun _ _ _ _ _ _ => false) (VarExpr (str "x"))
            (Some (ExtendedEnv (str "y") (NumVal 3)
                     (ExtendedEnv (str "x") (NumVal 1) EmptyEnv)))
            (Ok (NumVal 1))).
Proof.
  assert (H1 : evaluates (fun _ _ _ _ _ _ => false)
     (FunExpr (str "y") (VarExpr (str "x")))
     (Some (or_empty (Some (ExtendedEnv (str "x") (NumVal 1) EmptyEnv))))
     (Ok (FunVal (str "y") (VarExpr (str "x"))
            (ExtendedEnv (str "x") (NumVal 1) EmptyEnv)))).
  { split; [discriminate | exists 1%nat; reflexivity]. }
  assert (H2 : evaluates (fun _ _ _ _ _ _ => false) (NumExpr 3)
        (Some (or_empty (Some (ExtendedEnv (str "x") (NumVal 1) EmptyEnv))))
        (Ok (NumVal 3))).
  { split; [discriminate | exists 1%nat; reflexivity]. }
  split; [exact (conj H1 H2)|].
  apply (proj2 (proj2 (proj2 (closure_capture (fun _ _ _ _ _ _ => false))))
           (FunExpr (str "y") (VarExpr (str "x"))) (NumExpr 3)
           (Some (ExtendedEnv (str "x") (NumVal 1) EmptyEnv))
           (str "y") (VarExpr (str "x"))
           (ExtendedEnv (str "x") (NumVal 1) EmptyEnv) (NumVal 3)
           (Ok (NumVal 1)) H1 H2).
Defined.

(** C8: [VarExpr::interp] calls [lookup] through the environment pointer
    without the test for a null pointer that the other classes make.
    Evaluating the parsed variable [x] with no environment supplied is
    therefore a null dereference, not the unbound-variable error; that
    error is what the empty environment gives, and what a sum containing
    the variable gives with no environment supplied. *)
Theorem VarExpr_interp_without_env :
  forall funval_equals fuel,
    parse_str (str "x") = Ok (VarExpr (str "x"))
    /\ interp funval_equals (S fuel) (VarExpr (str "x")) None
       = Throw NullDereference
    /\ interp funval_equals (S fuel) (VarExpr (str "x")) (Some EmptyEnv)
       = Throw UnboundVariableError
    /\ interp funval_equals (S (S fuel))
         (AddExpr (VarExpr (str "x")) (NumExpr 1)) None
       = Throw UnboundVariableError.
Proof.
  intros fe fuel. repeat split; reflexivity.
Qed.

(** ** Reading back the pretty-printed form *)

Lemma parsesW_at_multicand :
  forall prec lp inp e rest,
    parsesW_multicand inp e rest -> follows prec lp rest ->
    parsesW_at prec inp e rest.
Proof.
  intros prec lp inp e rest H [_ [Hstar Hplus]].
  destruct prec; cbn [parsesW_at].
  - apply parsesW_expr_multicand; [exact H | |].
    + apply Hstar. apply orb_true_r.
    + apply Hplus. apply orb_true_r.
  - apply parsesW_addend_single; [exact H|].
    apply Hstar. apply orb_true_r.
  - exact H.
Qed.

Lemma follows_closing :
  forall prec lp rest, follows prec lp (")"%char :: rest).
Proof. intros prec lp rest. repeat split. Qed.

Lemma follows_plus :
  forall rest, follows prec_add true (str " + " ++ rest).
Proof.
  intros rest. split; [reflexivity|].
  split; [intros _; reflexivity | intros H; discriminate H].
Qed.

Lemma follows_times :
  forall rest, follows prec_mult true (str " * " ++ rest).
Proof.
  intros rest. split; [reflexivity|].
  split; intros H; discriminate H.
Qed.

Lemma next_char_in :
  forall d rest,
    next_char (newline :: spaces d ++ str "_in  " ++ rest) = Some "_"%char.
Proof.
  intros d rest. unfold next_char.
  change (skip_whitespace (newline :: spaces d ++ str "_in  " ++ rest))
    with (skip_whitespace (spaces d ++ str "_in  " ++ rest)).
  rewrite skip_whitespace_spaces. reflexivity.
Qed.

Lemma follows_in :
  forall prec lp d rest,
    follows prec lp (newline :: spaces d ++ str "_in  " ++ rest).
Proof.
  intros prec lp d rest. unfold follows. rewrite next_char_in.
  repeat split.
Qed.

(** The text of an unparenthesised [_let], given that its two
    sub-expressions are read back. *)
Lemma let_text_parses :
  forall x tr tb r b d rest,
    forallb isalpha x = true ->
    parsesW_expr (tr ++ newline :: spaces d ++ str "_in  " ++ tb ++ rest) r
      (newline :: spaces d ++ str "_in  " ++ tb ++ rest) ->
    parsesW_expr (tb ++ rest) b rest ->
    parsesW_multicand
      (str "_let " ++ x ++ str " = " ++ tr ++ newline :: spaces d
         ++ str "_in  " ++ tb ++ rest)
      (LetExpr x r b) rest.
Proof.
  intros x tr tb r b d rest Hx Hr Hb.
  set (R1 := newline :: spaces d ++ str "_in  " ++ tb ++ rest) in *.
  assert (Hin : skip_whitespace R1 = str "_in" ++ str "  " ++ tb ++ rest).
  { unfold R1.
    change (skip_whitespace (newline :: spaces d ++ str "_in  " ++ tb ++ rest))
      with (skip_whitespace (spaces d ++ str "_in  " ++ tb ++ rest)).
    rewrite skip_whitespace_spaces. reflexivity. }
  assert (Hbody : parsesW_expr (str "  " ++ tb ++ rest) b rest).
  { apply parsesW_expr_skip with (inp' := tb ++ rest);
      [exact Hb | reflexivity]. }
  assert (Hrhs : parsesW_expr (str " " ++ tr ++ R1) r R1).
  { apply parsesW_expr_skip with (inp' := tr ++ R1);
      [exact Hr | reflexivity]. }
  destruct x as [|c x].
  - apply parsesW_multicand_let
      with (inp1 := str " " ++ [] ++ str " = " ++ tr ++ R1)
           (inp2 := str "= " ++ tr ++ R1)
           (inp3 := str " " ++ tr ++ R1)
           (inp4 := R1) (inp5 := str "  " ++ tb ++ rest);
      try reflexivity; assumption.
  - apply parsesW_multicand_let
      with (inp1 := str " " ++ (c :: x) ++ str " = " ++ tr ++ R1)
           (inp2 := str " = " ++ tr ++ R1)
           (inp3 := str " " ++ tr ++ R1)
           (inp4 := R1) (inp5 := str "  " ++ tb ++ rest);
      try reflexivity; try assumption.
    change (skip_whitespace (str " " ++ (c :: x) ++ str " = " ++ tr ++ R1))
      with (skip_whitespace ((c :: x) ++ str " = " ++ tr ++ R1)).
    assert (Hc : isspace c = false).
    { simpl in Hx. apply andb_prop in Hx as [Hc _].
      destruct (isalpha_other c Hc) as [_ [Hs _]]. exact Hs. }
    cbn [app skip_whitespace]. rewrite Hc.
    change (c :: x ++ str " = " ++ tr ++ R1)
      with ((c :: x) ++ str " = " ++ tr ++ R1).
    apply parse_var_name; [exact Hx | reflexivity].
Qed.

(** Whatever has been written so far, [pretty_print_at] appends a text
    that the parser function of the precedence reads back as the
    expression, provided what follows is compatible with the context. *)
Lemma pretty_print_at_parses :
  forall e, parseable e ->
    forall prec lp (out : list ascii) sp,
      exists (t : list ascii) sp',
        pretty_print_at e prec lp (out, sp) = (out ++ t, sp')
        /\ forall rest,
            follows prec lp rest -> parsesW_at prec (t ++ rest) e rest.
Proof.
  induction e as [n|x|l IHl r IHr|l IHl r IHr|x r IHr b IHb| | | | | ];
    intros He prec lp out sp; cbn [parseable] in He; try contradiction.
  - exists (print (NumExpr n)), sp. split; [reflexivity|].
    intros rest Hf. apply parsesW_at_multicand with (lp := lp); [|exact Hf].
    apply parsesW_multicand_int; [exact He | apply Hf].
  - destruct He as [Hne Hx]. exists x, sp. split; [reflexivity|].
    intros rest Hf. apply parsesW_at_multicand with (lp := lp); [|exact Hf].
    apply parsesW_multicand_name; [exact Hne | exact Hx | apply Hf].
  - destruct He as [Hl Hr]. cbn [pretty_print_at].
    destruct (prec_ge prec prec_add) eqn:Eprec;
      unfold emit_if, emit; cbn [fst snd].
    + destruct (IHl Hl prec_add true (out ++ str "(") sp)
        as [tl [sp1 [El Pl]]].
      rewrite El. cbn [fst snd].
      destruct (IHr Hr prec_none lp (((out ++ str "(") ++ tl) ++ str " + ") sp1)
        as [tr [sp2 [Er Pr]]].
      rewrite Er. cbn [fst snd].
      exists (str "(" ++ tl ++ str " + " ++ tr ++ str ")"), sp2.
      split; [rewrite <- !app_assoc; reflexivity|].
      intros rest Hf.
      apply parsesW_at_multicand with (lp := lp); [|exact Hf].
      rewrite <- !app_assoc.
      apply parsesW_multicand_paren
        with (inp1 := tl ++ str " + " ++ tr ++ str ")" ++ rest);
        [reflexivity|].
      apply parsesW_expr_add
        with (rest1 := str " + " ++ tr ++ str ")" ++ rest)
             (rest2 := str " " ++ tr ++ str ")" ++ rest); [|reflexivity|].
      * apply (Pl (str " + " ++ tr ++ str ")" ++ rest)). apply follows_plus.
      * apply parsesW_expr_skip with (inp' := tr ++ str ")" ++ rest);
          [|reflexivity].
        apply (Pr (str ")" ++ rest)). apply follows_closing.
    + assert (Hp : prec = prec_none) by (destruct prec; trivial; discriminate).
      subst prec.
      destruct (IHl Hl prec_add true out sp) as [tl [sp1 [El Pl]]].
      rewrite El. cbn [fst snd].
      destruct (IHr Hr prec_none lp ((out ++ tl) ++ str " + ") sp1)
        as [tr [sp2 [Er Pr]]].
      rewrite Er.
      exists (tl ++ str " + " ++ tr), sp2.
      split; [rewrite <- !app_assoc; reflexivity|].
      intros rest Hf. cbn [parsesW_at]. rewrite <- !app_assoc.
      apply parsesW_expr_add
        with (rest1 := str " + " ++ tr ++ rest)
             (rest2 := str " " ++ tr ++ rest); [|reflexivity|].
      * apply (Pl (str " + " ++ tr ++ rest)). apply follows_plus.
      * apply parsesW_expr_skip with (inp' := tr ++ rest); [|reflexivity].
        apply (Pr rest). exact Hf.
  - destruct He as [Hl Hr]. cbn [pretty_print_at].
    destruct (prec_ge prec prec_mult) eqn:Eprec;
      unfold emit_if, emit; cbn [fst snd].
    + assert (Hp : prec = prec_mult) by (destruct prec; trivial; discriminate).
      subst prec.
      destruct (IHl Hl prec_mult true (out ++ str "(") sp)
        as [tl [sp1 [El Pl]]].
      rewrite El. cbn [fst snd].
      destruct (IHr Hr prec_add false (((out ++ str "(") ++ tl) ++ str " * ") sp1)
        as [tr [sp2 [Er Pr]]].
      rewrite Er. cbn [fst snd].
      exists (str "(" ++ tl ++ str " * " ++ tr ++ str ")"), sp2.
      split; [rewrite <- !app_assoc; reflexivity|].
      intros rest Hf. cbn [parsesW_at]. rewrite <- !app_assoc.
      apply parsesW_multicand_paren
        with (inp1 := tl ++ str " * " ++ tr ++ str ")" ++ rest);
        [reflexivity|].
      apply parsesW_expr_single; [|reflexivity].
      apply parsesW_addend_mult
        with (rest1 := str " * " ++ tr ++ str ")" ++ rest)
             (rest2 := str " " ++ tr ++ str ")" ++ rest); [|reflexivity|].
      * apply (Pl (str " * " ++ tr ++ str ")" ++ rest)). apply follows_times.
      * apply parsesW_addend_skip with (inp' := tr ++ str ")" ++ rest);
          [|reflexivity].
        apply (Pr (str ")" ++ rest)). apply follows_closing.
    + destruct (IHl Hl prec_mult true out sp) as [tl [sp1 [El Pl]]].
      rewrite El. cbn [fst snd].
      destruct (IHr Hr prec_add lp ((out ++ tl) ++ str " * ") sp1)
        as [tr [sp2 [Er Pr]]].
      rewrite Er.
      exists (tl ++ str " * " ++ tr), sp2.
      split; [rewrite <- !app_assoc; reflexivity|].
      intros rest [Hal [Hstar Hplus]].
      assert (Hs : is_char (next_char rest) "*" = false).
      { apply Hstar. rewrite Eprec. apply orb_true_r. }
      assert (Hadd : parsesW_addend ((tl ++ str " * " ++ tr) ++ rest)
                       (MultExpr l r) rest).
      { rewrite <- !app_assoc.
        apply parsesW_addend_mult
          with (rest1 := str " * " ++ tr ++ rest)
               (rest2 := str " " ++ tr ++ rest); [|reflexivity|].
        - apply (Pl (str " * " ++ tr ++ rest)). apply follows_times.
        - apply parsesW_addend_skip with (inp' := tr ++ rest); [|reflexivity].
          apply (Pr rest). split; [exact Hal|]. split; [intros _; exact Hs|].
          intros Hn. apply Hplus.
          destruct lp; [discriminate | reflexivity]. }
      destruct prec; cbn [parsesW_at]; [|exact Hadd|discriminate].
      apply parsesW_expr_single; [exact Hadd|].
      apply Hplus. apply orb_true_r.
  - destruct He as [Hx [Hr Hb]]. cbn [pretty_print_at].
    destruct lp; unfold emit_if, emit, set_strmpos, tellp; cbn [fst snd].
    + set (d := (length (out ++ str "(") - sp)%nat).
      destruct (IHr Hr prec_none false
                  ((out ++ str "(") ++ str "_let " ++ x ++ str " = ") sp)
        as [tr [sp1 [Er Pr]]].
      rewrite Er. cbn [fst snd].
      match goal with
      | |- context [pretty_print_at b prec_none false (?o, ?s)] =>
          destruct (IHb Hb prec_none false o s) as [tb [sp2 [Eb Pb]]]
      end.
      rewrite Eb. cbn [fst snd].
      exists (str "(" ++ str "_let " ++ x ++ str " = " ++ tr
                ++ [newline] ++ spaces d ++ str "_in  " ++ tb ++ str ")"), sp2.
      split.
      { f_equal. rewrite <- !app_assoc. reflexivity. }
      intros rest Hf.
      apply parsesW_at_multicand with (lp := true); [|exact Hf].
      rewrite <- !app_assoc. cbn [app].
      apply parsesW_multicand_paren
        with (inp1 := str "_let " ++ x ++ str " = " ++ tr
                        ++ newline :: spaces d ++ str "_in  " ++ tb
                        ++ str ")" ++ rest).
      { reflexivity. }
      apply parsesW_expr_multicand; [|reflexivity|reflexivity].
      apply let_text_parses; [exact Hx | |].
      * apply (Pr (newline :: spaces d ++ str "_in  " ++ tb ++ str ")" ++ rest)).
        apply follows_in.
      * apply (Pb (str ")" ++ rest)). apply follows_closing.
    + set (d := (length out - sp)%nat).
      destruct (IHr Hr prec_none false
                  (out ++ str "_let " ++ x ++ str " = ") sp)
        as [tr [sp1 [Er Pr]]].
      rewrite Er. cbn [fst snd].
      match goal with
      | |- context [pretty_print_at b prec_none false (?o, ?s)] =>
          destruct (IHb Hb prec_none false o s) as [tb [sp2 [Eb Pb]]]
      end.
      rewrite Eb.
      exists (str "_let " ++ x ++ str " = " ++ tr
                ++ [newline] ++ spaces d ++ str "_in  " ++ tb), sp2.
      split.
      { f_equal. rewrite <- !app_assoc. reflexivity. }
      intros rest Hf.
      apply parsesW_at_multicand with (lp := false); [|exact Hf].
      rewrite <- !app_assoc. cbn [app].
      apply let_text_parses; [exact Hx | |].
      * apply (Pr (newline :: spaces d ++ str "_in  " ++ tb ++ rest)).
        apply follows_in.
      * apply (Pb rest). destruct Hf as [Hal [Hstar Hplus]].
        split; [exact Hal|]. split; intros _; [apply Hstar | apply Hplus];
          reflexivity.
Qed.

(** [strmpos] stays a written position, so the indentation depth
    [startPosition - strmpos] of a [_let] is never negative. *)
Lemma emit_written :
  forall s st, strmpos_written st -> strmpos_written (emit s st).
Proof.
  intros s [out sp] H. unfold strmpos_written, tellp, emit in *.
  cbn [fst snd] in *. rewrite length_app. lia.
Qed.

Lemma emit_if_written :
  forall c s st, strmpos_written st -> strmpos_written (emit_if c s st).
Proof.
  intros [|] s st H; cbn [emit_if]; [apply emit_written|]; exact H.
Qed.

Lemma set_strmpos_written :
  forall st, strmpos_written (set_strmpos (tellp st) st).
Proof. intros [out sp]. unfold strmpos_written, tellp, set_strmpos. cbn. lia. Qed.

Lemma pretty_print_at_strmpos :
  forall e prec lp st,
    strmpos_written st -> strmpos_written (pretty_print_at e prec lp st).
Proof.
  induction e; intros prec lp st H; cbn [pretty_print_at];
    repeat first
      [ assumption
      | apply emit_written
      | apply emit_if_written
      | apply set_strmpos_written
      | match goal with
        | IH : forall prec lp st, _ -> strmpos_written (pretty_print_at ?e _ _ _)
          |- strmpos_written (pretty_print_at ?e _ _ _) => apply IH
        end ].
Qed.

(** ** Round trip through the pretty-printed form *)

(** C2, as the code has it: for every expression the parser can build
    (numbers in the [int] range, variables with a non-empty alphabetic
    name, sums, products and [_let] with an alphabetic name), parsing the
    pretty-printed rendering gives an equal tree: the minimal
    parenthesization does not change what is parsed. *)
Theorem to_pretty_string_roundtrip :
  forall e, parseable e ->
    exists e', parse_str (to_pretty_string e) = Ok e' /\ equals e' e = true.
Proof.
  intros e He. exists e. split; [|apply equals_refl].
  destruct (pretty_print_at_parses e He prec_none false [] 0%nat)
    as [t [sp' [E P]]].
  unfold to_pretty_string, pretty_print, text in *. rewrite E. cbn [fst app].
  apply parse_str_of_parses with (rest := []); [|reflexivity].
  rewrite <- (app_nil_r t). apply (P []). repeat split.
Qed.

Lemma to_pretty_string_roundtrip_witness :
  parseable sample_nested
  /\ exists e', parse_str (to_pretty_string sample_nested) = Ok e'
                /\ equals e' sample_nested = true.
Proof.
  assert (H : parseable sample_nested).
  { unfold sample_nested, parseable, in_int_range, int_min, int_max.
    repeat split; try lia; try reflexivity; discriminate. }
  split; [exact H | apply (to_pretty_string_roundtrip sample_nested H)].
Defined.

(** C2 as stated fails: [pretty_print_at] writes nothing for a function
    literal and for a call, and the empty text is not parsed. *)
Lemma to_pretty_string_roundtrip_fails :
  to_pretty_string (FunExpr (str "x") (VarExpr (str "x"))) = []
  /\ to_pretty_string (CallExpr (VarExpr (str "f")) (NumExpr 3)) = []
  /\ parse_str [] = Throw "invalid input"%string
  /\ ~ (exists e',
          parse_str (to_pretty_string (FunExpr (str "x") (VarExpr (str "x"))))
          = Ok e'
          /\ equals e' (FunExpr (str "x") (VarExpr (str "x"))) = true).
Proof.
  repeat split. intros [e' [H _]]. vm_compute in H. discriminate.
Qed.

(** * Further properties of the code *)

(** ** Structural equality *)

Lemma text_eqb_eq : forall a b, text_eqb a b = true -> a = b.
Proof.
  intros a b. unfold text_eqb.
  destruct (list_eq_dec ascii_dec a b); [trivial | discriminate].
Qed.

Lemma equals_eq : forall e1 e2, equals e1 e2 = true -> e1 = e2.
Proof.
  induction e1; intros e2 H; destruct e2; simpl in H; try discriminate;
    repeat match goal with
           | H : _ && _ = true |- _ => apply andb_prop in H; destruct H
           end;
    repeat match goal with
           | H : text_eqb _ _ = true |- _ => apply text_eqb_eq in H; subst
           | H : Z.eqb _ _ = true |- _ => apply Z.eqb_eq in H; subst
           | H : Bool.eqb _ _ = true |- _ => apply Bool.eqb_prop in H; subst
           | IH : forall e2, equals ?e e2 = true -> ?e = e2,
             H : equals ?e _ = true |- _ => apply IH in H; subst
           end;
    reflexivity.
Qed.

(** X1: [equals] decides equality of trees: two expressions are [equals]
    exactly when they are the same node class with equal fields, all the
    way down; expressions of different classes are never [equals]. *)
Theorem equals_iff_same_tree :
  forall e1 e2, equals e1 e2 = true <-> e1 = e2.
Proof.
  intros e1 e2. split; [apply equals_eq|].
  intros ->. apply equals_refl.
Qed.

(** ** The lexical helpers *)

(** X2: [skip_whitespace] removes exactly the white space at the front:
    the input is some white space followed by what is left, and what is
    left does not start with white space. *)
Theorem skip_whitespace_spec :
  forall inp,
    exists ws,
      inp = ws ++ skip_whitespace inp
      /\ forallb isspace ws = true
      /\ match skip_whitespace inp with
         | c :: _ => isspace c = false
         | [] => True
         end.
Proof.
  induction inp as [|c inp [ws [H1 [H2 H3]]]].
  - exists []. repeat split.
  - simpl. destruct (isspace c) eqn:E.
    + exists (c :: ws). simpl. rewrite E, H2. repeat split; [|exact H3].
      f_equal. exact H1.
    + exists []. repeat split. exact E.
Qed.

Lemma parse_var_loop_spec :
  forall inp,
    exists s rest,
      parse_var_loop inp = (s, rest)
      /\ inp = s ++ rest
      /\ forallb isalpha s = true
      /\ isalpha_i (peek rest) = false.
Proof.
  induction inp as [|c inp [s [rest [H1 [H2 [H3 H4]]]]]].
  - exists [], []. repeat split.
  - simpl. destruct (isalpha c) eqn:E.
    + exists (c :: s), rest. rewrite H1. simpl. rewrite E, H3.
      repeat split; [|exact H4]. f_equal. exact H2.
    + exists [], (c :: inp). repeat split. exact E.
Qed.

(** X3: [parse_var] takes the longest run of letters at the front of the
    input as the name, possibly none, and leaves the rest untouched; it
    never throws. *)
Theorem parse_var_longest_name :
  forall inp,
    exists s rest,
      parse_var inp = (VarExpr s, rest)
      /\ inp = s ++ rest
      /\ forallb isalpha s = true
      /\ isalpha_i (peek rest) = false.
Proof.
  intros inp. destruct (parse_var_loop_spec inp) as [s [rest [H1 H]]].
  exists s, rest. split; [|exact H].
  unfold parse_var. rewrite H1. reflexivity.
Qed.

Lemma consume_word_ok :
  forall w inp rest, consume_word inp w = Ok rest -> inp = w ++ rest.
Proof.
  induction w as [|c w IH]; intros inp rest H; simpl in H.
  - injection H as <-. reflexivity.
  - destruct inp as [|d inp]; [discriminate|].
    destruct (Ascii.eqb d c) eqn:E; [|discriminate].
    apply Ascii.eqb_eq in E. subst d. simpl. f_equal. apply IH, H.
Qed.

Lemma consume_word_throws :
  forall w inp msg,
    consume_word inp w = Throw msg -> msg = "consume mismatch"%string.
Proof.
  induction w as [|c w IH]; intros inp msg H; simpl in H; [discriminate|].
  destruct inp as [|d inp]; [injection H as <-; reflexivity|].
  destruct (Ascii.eqb d c); [apply (IH _ _ H) | injection H as <-; reflexivity].
Qed.

(** X4: [consume_word] succeeds exactly when the word is a prefix of the
    input, and then leaves what follows the word; in every other case it
    throws "consume mismatch". *)
Theorem consume_word_prefix :
  forall w inp,
    (forall rest, consume_word inp w = Ok rest <-> inp = w ++ rest)
    /\ ((exists rest, consume_word inp w = Ok rest)
        \/ consume_word inp w = Throw "consume mismatch"%string).
Proof.
  intros w inp. split.
  - intros rest. split; [apply consume_word_ok|].
    intros ->. apply consume_word_app.
  - destruct (consume_word inp w) as [rest|msg|] eqn:E.
    + left. exists rest. reflexivity.
    + right. rewrite (consume_word_throws _ _ E). reflexivity.
    + exfalso. exact (consume_word_finishes _ _ E).
Qed.

Lemma parse_num_loop_spec :
  forall inp n,
    exists ds rest,
      parse_num_loop n inp = (accumulate ds n, rest)
      /\ inp = ds ++ rest
      /\ forallb isdigit ds = true
      /\ no_digit_head rest = true.
Proof.
  induction inp as [|c inp IH]; intros n.
  - exists [], []. repeat split.
  - simpl. destruct (isdigit c) eqn:E.
    + destruct (IH (int_wrap (n * 10 + digit_val c)))
        as [ds [rest [H1 [H2 [H3 H4]]]]].
      exists (c :: ds), rest. rewrite H1. simpl. rewrite E, H3.
      repeat split; [|exact H4]. f_equal. exact H2.
    + exists [], (c :: inp). repeat split.
      unfold no_digit_head. simpl. rewrite E. reflexivity.
Qed.

Lemma accumulate_from_zero_range :
  forall ds, in_int_range (accumulate ds 0).
Proof.
  intros ds. apply accumulate_range.
  unfold in_int_range, int_min, int_max. lia.
Qed.


(** ** What the parser returns *)

Lemma parse_returns_skipped :
  forall fuel inp e rest,
    (parse_expr fuel inp = Ok (e, rest) -> skip_whitespace rest = rest)
    /\ (parse_addend fuel inp = Ok (e, rest) -> skip_whitespace rest = rest).
Proof.
  induction fuel as [|f IH]; intros inp e rest; [split; discriminate|].
  split; intros H.
  - rewrite parse_expr_S in H.
    destruct (parse_addend f inp) as [[l i0]| |]; cbn [bind] in H;
      try discriminate.
    cbv zeta in H. destruct (is_char (peek (skip_whitespace i0)) "+").
    + destruct (consume (skip_whitespace i0) (Some "+"%char)) as [i1| |];
        cbn [bind] in H; try discriminate.
      destruct (parse_expr f i1) as [[r i2]| |] eqn:E; cbn [bind] in H;
        try discriminate.
      injection H as _ <-. exact (proj1 (IH _ _ _) E).
    + injection H as _ <-. apply skip_whitespace_idem.
  - rewrite parse_addend_S in H.
    destruct (parse_multicand f inp) as [[l i0]| |]; cbn [bind] in H;
      try discriminate.
    cbv zeta in H. destruct (is_char (peek (skip_whitespace i0)) "*").
    + destruct (consume (skip_whitespace i0) (Some "*"%char)) as [i1| |];
        cbn [bind] in H; try discriminate.
      destruct (parse_addend f (skip_whitespace i1)) as [[r i2]| |] eqn:E;
        cbn [bind] in H; try discriminate.
      injection H as _ <-. exact (proj2 (IH _ _ _) E).
    + injection H as _ <-. apply skip_whitespace_idem.
Qed.

(** X6: every successful call of [parse_expr], [parse_addend] and
    [parse_multicand] consumes at least one character (which is why the
    recursive descent ends), and [parse_expr] and [parse_addend] return
    with the white space after the expression already skipped. *)
Theorem parse_consumes_input :
  forall fuel inp e rest,
    (parse_expr fuel inp = Ok (e, rest) ->
     (length rest < length inp)%nat /\ skip_whitespace rest = rest)
    /\ (parse_addend fuel inp = Ok (e, rest) ->
        (length rest < length inp)%nat /\ skip_whitespace rest = rest)
    /\ (parse_multicand fuel inp = Ok (e, rest) ->
        (length rest < length inp)%nat).
Proof.
  intros fuel inp e rest.
  destruct (parse_length fuel) as [Le [La Lm]].
  destruct (parse_returns_skipped fuel inp e rest) as [Se Sa].
  split; [|split]; intros H.
  - split; [exact (Le _ _ _ H) | exact (Se H)].
  - split; [exact (La _ _ _ H) | exact (Sa H)].
  - exact (Lm _ _ _ H).
Qed.

(** The parser only builds parseable expressions. *)
Lemma parse_num_parseable :
  forall inp e rest, parse_num inp = Ok (e, rest) -> parseable e.
Proof.
  intros inp e rest H. unfold parse_num in H.
  destruct (is_char (peek inp) "-").
  - destruct (consume inp (Some "-"%char)) as [i1| |]; cbn [bind] in H;
      try discriminate.
    destruct (negb (isdigit_i (peek i1))); [discriminate|].
    destruct (parse_num_loop 0 i1) as [n r]. injection H as <- _.
    apply int_wrap_range.
  - destruct (parse_num_loop_spec inp 0) as [ds [r [H1 _]]].
    rewrite H1 in H. injection H as <- _.
    apply accumulate_from_zero_range.
Qed.

Lemma parse_var_parseable :
  forall inp e rest,
    isalpha_i (peek inp) = true -> parse_var inp = (e, rest) -> parseable e.
Proof.
  intros inp e rest Ha H.
  destruct (parse_var_loop_spec inp) as [s [r [H1 [H2 [H3 H4]]]]].
  unfold parse_var in H. rewrite H1 in H. injection H as <- _.
  split; [|exact H3].
  intros ->. simpl in H2. subst r. congruence.
Qed.

Lemma parse_let_with_parseable :
  forall p,
    (forall inp e rest, p inp = Ok (e, rest) -> parseable e) ->
    forall inp e rest, parse_let_with p inp = Ok (e, rest) -> parseable e.
Proof.
  intros p Hp inp e rest H. unfold parse_let_with in H.
  destruct (consume_word (skip_whitespace inp) (str "_let")) as [i1| |];
    cbn [bind] in H; try discriminate.
  destruct (parse_var_loop_spec (skip_whitespace i1))
    as [x [i2 [H1 [_ [Hx _]]]]].
  unfold parse_var in H. rewrite H1 in H.
  destruct (consume (skip_whitespace i2) (Some "="%char)) as [i3| |];
    cbn [bind] in H; try discriminate.
  destruct (p (skip_whitespace i3)) as [[rhs i4]| |] eqn:E4;
    cbn [bind] in H; try discriminate.
  destruct (consume_word (skip_whitespace i4) (str "_in")) as [i5| |];
    cbn [bind] in H; try discriminate.
  destruct (p (skip_whitespace i5)) as [[body i6]| |] eqn:E6;
    cbn [bind] in H; try discriminate.
  injection H as <- _. cbn [to_string print parseable].
  split; [exact Hx|]. split; [exact (Hp _ _ _ E4) | exact (Hp _ _ _ E6)].
Qed.

Lemma parse_parseable :
  forall fuel,
    (forall inp e rest, parse_expr fuel inp = Ok (e, rest) -> parseable e)
    /\ (forall inp e rest, parse_addend fuel inp = Ok (e, rest) -> parseable e)
    /\ (forall inp e rest,
          parse_multicand fuel inp = Ok (e, rest) -> parseable e).
Proof.
  induction fuel as [|f [IHe [IHa IHm]]].
  - repeat split; intros inp e rest H; discriminate.
  - split; [|split]; intros inp e rest H.
    + rewrite parse_expr_S in H.
      destruct (parse_addend f inp) as [[l i0]| |] eqn:E0; cbn [bind] in H;
        try discriminate.
      cbv zeta in H. destruct (is_char (peek (skip_whitespace i0)) "+").
      * destruct (consume (skip_whitespace i0) (Some "+"%char)) as [i1| |];
          cbn [bind] in H; try discriminate.
        destruct (parse_expr f i1) as [[r i2]| |] eqn:E; cbn [bind] in H;
          try discriminate.
        injection H as <- _. split; [exact (IHa _ _ _ E0) | exact (IHe _ _ _ E)].
      * injection H as <- _. exact (IHa _ _ _ E0).
    + rewrite parse_addend_S in H.
      destruct (parse_multicand f inp) as [[l i0]| |] eqn:E0; cbn [bind] in H;
        try discriminate.
      cbv zeta in H. destruct (is_char (peek (skip_whitespace i0)) "*").
      * destruct (consume (skip_whitespace i0) (Some "*"%char)) as [i1| |];
          cbn [bind] in H; try discriminate.
        destruct (parse_addend f (skip_whitespace i1)) as [[r i2]| |] eqn:E;
          cbn [bind] in H; try discriminate.
        injection H as <- _. split; [exact (IHm _ _ _ E0) | exact (IHa _ _ _ E)].
      * injection H as <- _. exact (IHm _ _ _ E0).
    + rewrite parse_multicand_S in H. cbv zeta in H.
      destruct (is_char (peek (skip_whitespace inp)) "-"
                || isdigit_i (peek (skip_whitespace inp))).
      { eapply parse_num_parseable; exact H. }
      destruct (is_char (peek (skip_whitespace inp)) "(").
      { destruct (consume (skip_whitespace inp) (Some "("%char)) as [i1| |];
          cbn [bind] in H; try discriminate.
        destruct (parse_expr f i1) as [[r i2]| |] eqn:E; cbn [bind] in H;
          try discriminate.
        destruct (skip_whitespace i2) as [|c i3]; [discriminate|].
        destruct (Ascii.eqb c ")"); [|discriminate].
        injection H as <- _. exact (IHe _ _ _ E). }
      destruct (isalpha_i (peek (skip_whitespace inp))) eqn:Ea.
      { injection H as H.
        destruct (parse_var (skip_whitespace inp)) as [v r] eqn:Ev.
        injection H as <- _. eapply parse_var_parseable; [exact Ea | exact Ev]. }
      destruct (is_char (peek (skip_whitespace inp)) "_").
      { eapply parse_let_with_parseable; [exact IHe | exact H]. }
      destruct (consume (skip_whitespace inp) (peek (skip_whitespace inp)));
        discriminate.
Qed.

Lemma parse_str_parseable :
  forall s e, parse_str s = Ok e -> parseable e.
Proof.
  intros s e H. unfold parse_str, parse in H.
  destruct (parse_expr (parse_depth s) s) as [[e' rest]| |] eqn:E;
    cbn [bind] in H; try discriminate.
  destruct (negb (eof (skip_whitespace rest))); [discriminate|].
  injection H as <-. eapply (proj1 (parse_parseable _)); exact E.
Qed.

(** X7: what [parse_str] never returns: a tree with a boolean, [_if],
    [==], [_fun] or call node, a number outside the [int] range, a
    variable with an empty or non-alphabetic name, or a [_let] with a
    non-alphabetic name. *)
Theorem parse_str_builds_parseable :
  forall s e, parse_str s = Ok e -> parseable e.
Proof. exact parse_str_parseable. Qed.

Lemma parse_str_builds_parseable_witness :
  parse_str (str " _let x = 2*(3+y) _in  x ") =
    Ok (LetExpr (str "x")
          (MultExpr (NumExpr 2) (AddExpr (NumExpr 3) (VarExpr (str "y"))))
          (VarExpr (str "x")))
  /\ parseable
       (LetExpr (str "x")
          (MultExpr (NumExpr 2) (AddExpr (NumExpr 3) (VarExpr (str "y"))))
          (VarExpr (str "x"))).
Proof.
  assert (H : parse_str (str " _let x = 2*(3+y) _in  x ") =
    Ok (LetExpr (str "x")
          (MultExpr (NumExpr 2) (AddExpr (NumExpr 3) (VarExpr (str "y"))))
          (VarExpr (str "x")))) by (vm_compute; reflexivity).
  split; [exact H | exact (@parse_str_builds_parseable _ _ H)].
Defined.

(** ** Printing what was parsed *)

Lemma parse_str_to_string :
  forall e, parseable e -> parse_str (to_string e) = Ok e.
Proof.
  intros e He.
  apply parse_str_of_parses with (rest := []); [|reflexivity].
  apply parsesW_expr_multicand; [|reflexivity|reflexivity].
  rewrite <- (app_nil_r (to_string e)).
  apply print_parses; [exact He | reflexivity].
Qed.

Lemma parse_str_to_pretty_string :
  forall e, parseable e -> parse_str (to_pretty_string e) = Ok e.
Proof.
  intros e He.
  destruct (pretty_print_at_parses e He prec_none false [] 0%nat)
    as [t [sp' [E P]]].
  unfold to_pretty_string, pretty_print, text in *. rewrite E. cbn [fst app].
  apply parse_str_of_parses with (rest := []); [|reflexivity].
  rewrite <- (app_nil_r t). apply (P []). repeat split.
Qed.

(** X8: printing is a normal form for parsing: when [parse_str] accepts a
    text, both the canonical and the pretty rendering of the tree it
    returns are accepted too, and give the same tree again. *)
Theorem parse_print_parse :
  forall s e,
    parse_str s = Ok e ->
    parse_str (to_string e) = Ok e /\ parse_str (to_pretty_string e) = Ok e.
Proof.
  intros s e H. pose proof (parse_str_parseable s H) as He.
  split; [apply parse_str_to_string | apply parse_str_to_pretty_string];
    exact He.
Qed.

Lemma parse_print_parse_witness :
  parse_str (str "1 + 2*x+ ( 3 )") =
    Ok (AddExpr (NumExpr 1)
          (AddExpr (MultExpr (NumExpr 2) (VarExpr (str "x"))) (NumExpr 3)))
  /\ parse_str (to_string
       (AddExpr (NumExpr 1)
          (AddExpr (MultExpr (NumExpr 2) (VarExpr (str "x"))) (NumExpr 3))))
     = Ok (AddExpr (NumExpr 1)
             (AddExpr (MultExpr (NumExpr 2) (VarExpr (str "x"))) (NumExpr 3))).
Proof.
  assert (H : parse_str (str "1 + 2*x+ ( 3 )") =
    Ok (AddExpr (NumExpr 1)
          (AddExpr (MultExpr (NumExpr 2) (VarExpr (str "x"))) (NumExpr 3))))
    by (vm_compute; reflexivity).
  split; [exact H | exact (proj1 (@parse_print_parse _ _ H))].
Defined.

(** X9: on the expressions the parser can build, both renderings
    determine the tree: two such expressions with the same canonical text,
    or with the same pretty text, are the same expression. *)
Theorem rendering_determines_tree :
  forall e1 e2,
    parseable e1 -> parseable e2 ->
    (to_string e1 = to_string e2 -> e1 = e2)
    /\ (to_pretty_string e1 = to_pretty_string e2 -> e1 = e2).
Proof.
  intros e1 e2 H1 H2. split; intros H.
  - pose proof (@parse_str_to_string e1 H1) as P1.
    pose proof (@parse_str_to_string e2 H2) as P2.
    rewrite H in P1. congruence.
  - pose proof (@parse_str_to_pretty_string e1 H1) as P1.
    pose proof (@parse_str_to_pretty_string e2 H2) as P2.
    rewrite H in P1. congruence.
Qed.

Lemma rendering_determines_tree_witness :
  (parseable (AddExpr (NumExpr 1) (AddExpr (NumExpr 2) (NumExpr 3)))
   /\ parseable (AddExpr (AddExpr (NumExpr 1) (NumExpr 2)) (NumExpr 3)))
  /\ (to_pretty_string (AddExpr (NumExpr 1) (AddExpr (NumExpr 2) (NumExpr 3)))
      = to_pretty_string (AddExpr (AddExpr (NumExpr 1) (NumExpr 2)) (NumExpr 3))
      -> AddExpr (NumExpr 1) (AddExpr (NumExpr 2) (NumExpr 3))
         = AddExpr (AddExpr (NumExpr 1) (NumExpr 2)) (NumExpr 3)).
Proof.
  assert (H1 : parseable (AddExpr (NumExpr 1) (AddExpr (NumExpr 2) (NumExpr 3)))).
  { unfold parseable, in_int_range, int_min, int_max. lia. }
  assert (H2 : parseable (AddExpr (AddExpr (NumExpr 1) (NumExpr 2)) (NumExpr 3))).
  { unfold parseable, in_int_range, int_min, int_max. lia. }
  split; [exact (conj H1 H2)
         | exact (proj2 (@rendering_determines_tree _ _ H1 H2))].
Defined.

(** ** What the parser throws *)

Lemma consume_throws :
  forall inp expect msg,
    consume inp expect = Throw msg -> msg = "consume mismatch"%string.
Proof.
  intros [|c inp] [a|] msg H; simpl in H; try discriminate;
    try (injection H as <-; reflexivity).
  destruct (Ascii.eqb c a); [discriminate | injection H as <-; reflexivity].
Qed.

Lemma parse_num_throws :
  forall inp msg, parse_num inp = Throw msg -> msg = "not a num"%string.
Proof.
  intros inp msg H. unfold parse_num in H.
  destruct (is_char (peek inp) "-") eqn:Em.
  - destruct inp as [|c inp]; [discriminate|].
    cbn [peek hd_error is_char] in Em. apply Ascii.eqb_eq in Em. subst c.
    rewrite consume_head in H. cbn [bind] in H.
    destruct (negb (isdigit_i (peek inp)));
      [injection H as <-; reflexivity|].
    destruct (parse_num_loop 0 inp); discriminate.
  - destruct (parse_num_loop 0 inp); discriminate.
Qed.

Ltac known_message :=
  repeat match goal with
         | H : Throw _ = Throw _ |- _ => injection H as H
         | H : consume _ _ = Throw _ |- _ => apply consume_throws in H
         | H : consume_word _ _ = Throw _ |- _ =>
             apply consume_word_throws in H
         | H : parse_num _ = Throw _ |- _ => apply parse_num_throws in H
         end;
  subst; unfold parse_error_message; tauto.

Lemma parse_let_with_throws :
  forall p,
    (forall inp msg, p inp = Throw msg -> parse_error_message msg) ->
    forall inp msg,
      parse_let_with p inp = Throw msg -> parse_error_message msg.
Proof.
  intros p Hp inp msg H. unfold parse_let_with in H.
  destruct (consume_word (skip_whitespace inp) (str "_let")) as [i1| |] eqn:E1;
    cbn [bind] in H; try discriminate; [|known_message].
  destruct (parse_var (skip_whitespace i1)) as [v i2].
  destruct (consume (skip_whitespace i2) (Some "="%char)) as [i3| |] eqn:E3;
    cbn [bind] in H; try discriminate; [|known_message].
  destruct (p (skip_whitespace i3)) as [[rhs i4]| |] eqn:E4;
    cbn [bind] in H; try discriminate;
    [|injection H as <-; exact (Hp _ _ E4)].
  destruct (consume_word (skip_whitespace i4) (str "_in")) as [i5| |] eqn:E5;
    cbn [bind] in H; try discriminate; [|known_message].
  destruct (p (skip_whitespace i5)) as [[body i6]| |] eqn:E6;
    cbn [bind] in H; try discriminate.
  injection H as <-. exact (Hp _ _ E6).
Qed.

Lemma parse_throws :
  forall fuel,
    (forall inp msg, parse_expr fuel inp = Throw msg -> parse_error_message msg)
    /\ (forall inp msg,
         parse_addend fuel inp = Throw msg -> parse_error_message msg)
    /\ (forall inp msg,
         parse_multicand fuel inp = Throw msg -> parse_error_message msg).
Proof.
  induction fuel as [|f [IHe [IHa IHm]]].
  - repeat split; intros inp msg H; discriminate.
  - split; [|split]; intros inp msg H.
    + rewrite parse_expr_S in H.
      destruct (parse_addend f inp) as [[l i0]| |] eqn:E0; cbn [bind] in H;
        try discriminate; [|injection H as <-; exact (IHa _ _ E0)].
      cbv zeta in H.
      destruct (is_char (peek (skip_whitespace i0)) "+"); [|discriminate].
      destruct (consume (skip_whitespace i0) (Some "+"%char)) as [i1| |] eqn:E1;
        cbn [bind] in H; try discriminate; [|known_message].
      destruct (parse_expr f i1) as [[r i2]| |] eqn:E; cbn [bind] in H;
        try discriminate.
      injection H as <-. exact (IHe _ _ E).
    + rewrite parse_addend_S in H.
      destruct (parse_multicand f inp) as [[l i0]| |] eqn:E0; cbn [bind] in H;
        try discriminate; [|injection H as <-; exact (IHm _ _ E0)].
      cbv zeta in H.
      destruct (is_char (peek (skip_whitespace i0)) "*"); [|discriminate].
      destruct (consume (skip_whitespace i0) (Some "*"%char)) as [i1| |] eqn:E1;
        cbn [bind] in H; try discriminate; [|known_message].
      destruct (parse_addend f (skip_whitespace i1)) as [[r i2]| |] eqn:E;
        cbn [bind] in H; try discriminate.
      injection H as <-. exact (IHa _ _ E).
    + rewrite parse_multicand_S in H. cbv zeta in H.
      destruct (is_char (peek (skip_whitespace inp)) "-"
                || isdigit_i (peek (skip_whitespace inp))).
      { known_message. }
      destruct (is_char (peek (skip_whitespace inp)) "(").
      { destruct (consume (skip_whitespace inp) (Some "("%char)) as [i1| |] eqn:E1;
          cbn [bind] in H; try discriminate; [|known_message].
        destruct (parse_expr f i1) as [[r i2]| |] eqn:E; cbn [bind] in H;
          try discriminate; [|injection H as <-; exact (IHe _ _ E)].
        destruct (skip_whitespace i2) as [|c i3]; [known_message|].
        destruct (Ascii.eqb c ")"); [discriminate | known_message]. }
      destruct (isalpha_i (peek (skip_whitespace inp))); [discriminate|].
      destruct (is_char (peek (skip_whitespace inp)) "_").
      { eapply parse_let_with_throws; [exact IHe | exact H]. }
      destruct (consume (skip_whitespace inp) (peek (skip_whitespace inp)))
        eqn:E1; cbn [bind] in H; try discriminate; known_message.
Qed.

(** X10: whatever the input, [parse_str] throws only the four errors
    written in [parse.cpp]: "invalid input", "missing close parenthesis",
    "not a num" and "consume mismatch". *)
Theorem parse_str_throws_known :
  forall s msg, parse_str s = Throw msg -> parse_error_message msg.
Proof.
  intros s msg H. unfold parse_str, parse in H.
  destruct (parse_expr (parse_depth s) s) as [[e rest]| |] eqn:E;
    cbn [bind] in H; try discriminate.
  - destruct (negb (eof (skip_whitespace rest))); [known_message|discriminate].
  - injection H as <-. exact (proj1 (parse_throws _) _ _ E).
Qed.

Lemma parse_str_throws_known_witness :
  parse_str (str "2 * (_let x = 1 _im x)") = Throw "consume mismatch"%string
  /\ parse_error_message "consume mismatch"%string.
Proof.
  assert (H : parse_str (str "2 * (_let x = 1 _im x)")
              = Throw "consume mismatch"%string) by (vm_compute; reflexivity).
  split; [exact H | exact (@parse_str_throws_known _ _ H)].
Defined.

(** ** White space and malformed input *)

(** X11: white space in front of the input changes nothing: [parse_str]
    returns the same tree, or throws the same error, with and without
    it. *)
Theorem parse_str_leading_whitespace :
  forall ws s,
    forallb isspace ws = true -> parse_str (ws ++ s) = parse_str s.
Proof.
  intros ws s Hws. unfold parse_str, parse.
  assert (H : parse_expr (parse_depth (ws ++ s)) (ws ++ s)
              = parse_expr (parse_depth s) s).
  { rewrite <- (proj1 (parse_skip _ (ws ++ s))).
    rewrite (skip_whitespace_app ws s Hws).
    rewrite (proj1 (parse_skip _ s)).
    assert (Hle : (parse_depth s <= parse_depth (ws ++ s))%nat)
      by (unfold parse_depth; rewrite length_app; lia).
    exact (proj1 (parse_mono Hle) s _ eq_refl (parse_expr_total s)). }
  rewrite H. reflexivity.
Qed.

Lemma parse_str_leading_whitespace_witness :
  forallb isspace [" "%char; newline; "009"%char] = true
  /\ parse_str ([" "%char; newline; "009"%char] ++ str "1+x")
     = parse_str (str "1+x").
Proof.
  assert (H : forallb isspace [" "%char; newline; "009"%char] = true)
    by reflexivity.
  split; [exact H | exact (parse_str_leading_whitespace _ (str "1+x") H)].
Defined.

(** X12: an input that, after its leading white space, is empty or starts
    with a character that is not [-], a digit, [(], a letter or [_] makes
    [parse_str] throw "invalid input". *)
Theorem parse_str_invalid_start :
  forall inp,
    match skip_whitespace inp with
    | [] => True
    | c :: _ =>
        Ascii.eqb c "-" = false /\ isdigit c = false
        /\ Ascii.eqb c "(" = false /\ isalpha c = false
        /\ Ascii.eqb c "_" = false
    end ->
    parse_str inp = Throw "invalid input"%string.
Proof.
  intros inp Hc.
  assert (H : parse_expr 3 inp = Throw "invalid input"%string).
  { rewrite parse_expr_S, parse_addend_S, parse_multicand_S. cbv zeta.
    destruct (skip_whitespace inp) as [|c rest].
    - reflexivity.
    - destruct Hc as [H1 [H2 [H3 [H4 H5]]]].
      cbn [peek hd_error is_char isdigit_i isalpha_i].
      rewrite H1, H2, H3, H4, H5. cbn [orb]. rewrite consume_head.
      reflexivity. }
  unfold parse_str, parse.
  rewrite (parse_expr_at_depth 3 inp H ltac:(discriminate)). reflexivity.
Qed.

Lemma parse_str_invalid_start_witness :
  match skip_whitespace (str "  ") with
  | [] => True
  | c :: _ =>
      Ascii.eqb c "-" = false /\ isdigit c = false
      /\ Ascii.eqb c "(" = false /\ isalpha c = false
      /\ Ascii.eqb c "_" = false
  end
  /\ parse_str (str "  ") = Throw "invalid input"%string.
Proof.
  assert (H : match skip_whitespace (str "  ") with
              | [] => True
              | c :: _ =>
                  Ascii.eqb c "-" = false /\ isdigit c = false
                  /\ Ascii.eqb c "(" = false /\ isalpha c = false
                  /\ Ascii.eqb c "_" = false
              end) by exact I.
  split; [exact H | exact (parse_str_invalid_start (str "  ") H)].
Defined.

(** X13: the only keyword the parser knows at the start of an operand is
    [_let]: an input whose first character after the white space is [_],
    not followed by [let], makes [parse_str] throw "consume mismatch". *)
Theorem parse_str_unknown_keyword :
  forall inp rest,
    skip_whitespace inp = "_"%char :: rest ->
    (forall r, rest <> str "let" ++ r) ->
    parse_str inp = Throw "consume mismatch"%string.
Proof.
  intros inp rest Hs Hk.
  assert (H : parse_expr 3 inp = Throw "consume mismatch"%string).
  { rewrite parse_expr_S, parse_addend_S, parse_multicand_S. cbv zeta.
    rewrite Hs. do 4 by_head. unfold parse_let_with.
    change (skip_whitespace ("_"%char :: rest)) with ("_"%char :: rest).
    destruct (consume_word ("_"%char :: rest) (str "_let")) as [r| |] eqn:E.
    - apply consume_word_ok in E. injection E as E.
      exfalso. exact (Hk r E).
    - apply consume_word_throws in E. subst. reflexivity.
    - exfalso. exact (consume_word_finishes _ _ E). }
  unfold parse_str, parse.
  rewrite (parse_expr_at_depth 3 inp H ltac:(discriminate)). reflexivity.
Qed.

Lemma parse_str_unknown_keyword_witness :
  (skip_whitespace (str " _if 1 _then 2 _else 3")
   = "_"%char :: str "if 1 _then 2 _else 3"
   /\ forall r, str "if 1 _then 2 _else 3" <> str "let" ++ r)
  /\ parse_str (str " _if 1 _then 2 _else 3") = Throw "consume mismatch"%string.
Proof.
  assert (H1 : skip_whitespace (str " _if 1 _then 2 _else 3")
               = "_"%char :: str "if 1 _then 2 _else 3") by reflexivity.
  assert (H2 : forall r, str "if 1 _then 2 _else 3" <> str "let" ++ r).
  { intros r H. discriminate H. }
  split; [exact (conj H1 H2)
         | exact (@parse_str_unknown_keyword _ _ H1 H2)].
Defined.

(** X14: an opening parenthesis whose expression is not followed, after
    white space, by a closing one makes [parse_str] throw "missing close
    parenthesis". *)
Theorem parse_str_unclosed_parenthesis :
  forall inp inner e rest,
    skip_whitespace inp = "("%char :: inner ->
    parses_expr inner e rest ->
    is_char (peek (skip_whitespace rest)) ")" = false ->
    parse_str inp = Throw "missing close parenthesis"%string.
Proof.
  intros inp inner e rest Hs [f Hf] Hc.
  assert (H : parse_expr (S (S (S f))) inp
              = Throw "missing close parenthesis"%string).
  { rewrite parse_expr_S, parse_addend_S, parse_multicand_S. cbv zeta.
    rewrite Hs. do 2 by_head. rewrite consume_head. cbn [bind].
    rewrite Hf. cbn [bind].
    destruct (skip_whitespace rest) as [|c r]; [reflexivity|].
    cbn [peek hd_error is_char] in Hc. rewrite Hc. reflexivity. }
  unfold parse_str, parse.
  rewrite (parse_expr_at_depth _ inp H ltac:(discriminate)). reflexivity.
Qed.

Lemma parse_str_unclosed_parenthesis_witness :
  (skip_whitespace (str "(1 + 2 ] * 3") = "("%char :: str "1 + 2 ] * 3"
   /\ parses_expr (str "1 + 2 ] * 3") (AddExpr (NumExpr 1) (NumExpr 2))
        (str "] * 3")
   /\ is_char (peek (skip_whitespace (str "] * 3"))) ")" = false)
  /\ parse_str (str "(1 + 2 ] * 3") = Throw "missing close parenthesis"%string.
Proof.
  assert (H1 : skip_whitespace (str "(1 + 2 ] * 3")
               = "("%char :: str "1 + 2 ] * 3") by reflexivity.
  assert (H2 : parses_expr (str "1 + 2 ] * 3")
                 (AddExpr (NumExpr 1) (NumExpr 2)) (str "] * 3")).
  { exists 6%nat. vm_compute. reflexivity. }
  assert (H3 : is_char (peek (skip_whitespace (str "] * 3"))) ")" = false)
    by reflexivity.
  split; [exact (conj H1 (conj H2 H3))
         | exact (@parse_str_unclosed_parenthesis _ _ _ _ H1 H2 H3)].
Defined.

(** ** The state of the pretty printer *)

Lemma in_step_emit :
  forall o1 o2 s a b,
    in_step o1 o2 a b -> in_step o1 o2 (emit s a) (emit s b).
Proof.
  intros o1 o2 s [fa sa] [fb sb] [Wa [Wb [Hc [t [Ha Hb]]]]].
  unfold in_step, strmpos_written, column, tellp, emit in *.
  cbn [fst snd] in *. rewrite !length_app.
  repeat split; try lia.
  exists (t ++ s). subst fa fb. rewrite <- !app_assoc. split; reflexivity.
Qed.

Lemma in_step_emit_if :
  forall o1 o2 c s a b,
    in_step o1 o2 a b -> in_step o1 o2 (emit_if c s a) (emit_if c s b).
Proof.
  intros o1 o2 [|] s a b H; cbn [emit_if]; [apply in_step_emit|]; exact H.
Qed.

Lemma in_step_set_strmpos :
  forall o1 o2 a b,
    in_step o1 o2 a b ->
    in_step o1 o2 (set_strmpos (tellp a) a) (set_strmpos (tellp b) b).
Proof.
  intros o1 o2 [fa sa] [fb sb] [Wa [Wb [Hc [t [Ha Hb]]]]].
  unfold in_step, strmpos_written, column, tellp, set_strmpos in *.
  cbn [fst snd] in *. repeat split; try lia.
  exists t. split; assumption.
Qed.

Ltac in_step_steps :=
  repeat first
    [ assumption
    | apply in_step_emit
    | apply in_step_emit_if
    | apply in_step_set_strmpos
    | match goal with
      | IH : forall prec lp o1 o2 a b, _ -> in_step _ _ (pretty_print_at ?e _ _ _) _
        |- in_step _ _ (pretty_print_at ?e _ _ _) _ => apply IH
      end ].

(** Two printers at the same column write the same text and stay at the
    same column. *)
Lemma pretty_print_at_in_step :
  forall e prec lp o1 o2 a b,
    in_step o1 o2 a b ->
    in_step o1 o2 (pretty_print_at e prec lp a) (pretty_print_at e prec lp b).
Proof.
  induction e; intros prec lp o1 o2 a b H; cbn [pretty_print_at];
    try solve [in_step_steps].
  pose proof (in_step_emit_if lp (str "(") H) as HA.
  assert (Hd : (tellp (emit_if lp (str "(") a) - snd (emit_if lp (str "(") a)
                = tellp (emit_if lp (str "(") b) - snd (emit_if lp (str "(") b))%nat).
  { destruct HA as [_ [_ [Hc _]]]. exact Hc. }
  rewrite Hd. in_step_steps.
Qed.

Lemma in_step_start :
  forall a b,
    strmpos_written a -> strmpos_written b -> column a = column b ->
    in_step (fst a) (fst b) a b.
Proof.
  intros a b Wa Wb Hc. repeat split; try assumption.
  exists []. rewrite !app_nil_r. split; reflexivity.
Qed.

(** X15: [pretty_print_at] keeps the reference [strmpos] at a position
    that has been written, for every expression, so the indentation depth
    [startPosition - strmpos] of a [_let] is never negative; and it only
    appends to the stream. *)
Theorem pretty_print_keeps_strmpos :
  forall e prec lp st,
    strmpos_written st ->
    strmpos_written (pretty_print_at e prec lp st)
    /\ exists t, fst (pretty_print_at e prec lp st) = fst st ++ t.
Proof.
  intros e prec lp st W.
  destruct (pretty_print_at_in_step e prec lp
              (in_step_start W W eq_refl)) as [W' [_ [_ [t [Ht _]]]]].
  split; [exact W' | exists t; exact Ht].
Qed.

Lemma pretty_print_keeps_strmpos_witness :
  strmpos_written (str "abc", 2%nat)
  /\ strmpos_written
       (pretty_print_at
          (IfExpr (BoolExpr true) sample_nested (NumExpr 1)) prec_add true
          (str "abc", 2%nat)).
Proof.
  assert (H : strmpos_written (str "abc", 2%nat)).
  { unfold strmpos_written, tellp. cbn. lia. }
  split; [exact H|].
  exact (proj1 (pretty_print_keeps_strmpos
                  (IfExpr (BoolExpr true) sample_nested (NumExpr 1))
                  prec_add true H)).
Defined.

(** X16: the layout written by [pretty_print_at] depends on the stream
    only through the output column, the number of characters written since
    [strmpos]: from two states at the same column the same text is
    appended and the columns stay equal.  At column 0, with no precedence
    and no parent, the text appended is [to_pretty_string]. *)
Theorem pretty_print_at_column :
  forall e prec lp st1 st2,
    strmpos_written st1 -> strmpos_written st2 ->
    column st1 = column st2 ->
    (exists t,
       fst (pretty_print_at e prec lp st1) = fst st1 ++ t
       /\ fst (pretty_print_at e prec lp st2) = fst st2 ++ t
       /\ column (pretty_print_at e prec lp st1)
          = column (pretty_print_at e prec lp st2))
    /\ (column st1 = 0%nat ->
        fst (pretty_print_at e prec_none false st1)
        = fst st1 ++ to_pretty_string e).
Proof.
  intros e prec lp st1 st2 W1 W2 Hc. split.
  - destruct (pretty_print_at_in_step e prec lp (in_step_start W1 W2 Hc))
      as [_ [_ [Hc' [t [H1 H2]]]]].
    exists t. repeat split; assumption.
  - intros H0.
    assert (W0 : strmpos_written ([], 0%nat)).
    { unfold strmpos_written, tellp. cbn. lia. }
    assert (Hc0 : column st1 = column ([], 0%nat)) by (rewrite H0; reflexivity).
    destruct (pretty_print_at_in_step e prec_none false
                (in_step_start W1 W0 Hc0)) as [_ [_ [_ [t [H1 H2]]]]].
    rewrite H1. f_equal. unfold to_pretty_string, pretty_print.
    cbn [fst app] in H2. symmetry. exact H2.
Qed.

Lemma pretty_print_at_column_witness :
  (strmpos_written (str "ab" ++ [newline] ++ str "    ", 3%nat)
   /\ strmpos_written (str "    ", 0%nat)
   /\ column (str "ab" ++ [newline] ++ str "    ", 3%nat)
      = column (str "    ", 0%nat))
  /\ exists t,
       fst (pretty_print_at sample_nested prec_add true
              (str "ab" ++ [newline] ++ str "    ", 3%nat))
       = fst (str "ab" ++ [newline] ++ str "    ", 3%nat) ++ t
       /\ fst (pretty_print_at sample_nested prec_add true (str "    ", 0%nat))
          = fst (str "    ", 0%nat) ++ t
       /\ column (pretty_print_at sample_nested prec_add true
                    (str "ab" ++ [newline] ++ str "    ", 3%nat))
          = column (pretty_print_at sample_nested prec_add true
                      (str "    ", 0%nat)).
Proof.
  assert (H1 : strmpos_written (str "ab" ++ [newline] ++ str "    ", 3%nat)).
  { unfold strmpos_written, tellp. cbn. lia. }
  assert (H2 : strmpos_written (str "    ", 0%nat)).
  { unfold strmpos_written, tellp. cbn. lia. }
  assert (H3 : column (str "ab" ++ [newline] ++ str "    ", 3%nat)
               = column (str "    ", 0%nat)) by reflexivity.
  split; [exact (conj H1 (conj H2 H3))|].
  exact (proj1 (pretty_print_at_column sample_nested prec_add true H1 H2 H3)).
Defined.

(** ** Evaluation with no environment *)

Lemma lookup_not_null :
  forall env x, lookup env x <> Throw NullDereference.
Proof.
  induction env as [|name val rest IH]; intros x; simpl; [discriminate|].
  destruct (text_eqb x name); [discriminate | apply IH].
Qed.

Lemma bind_not_null :
  forall (m : outcome) (k : Val -> outcome),
    m <> Throw NullDereference ->
    (forall a, k a <> Throw NullDereference) ->
    bind m k <> Throw NullDereference.
Proof.
  intros [a|err|] k Hm Hk; cbn [bind]; [apply Hk | exact Hm | discriminate].
Qed.

Lemma interp_env_not_null :
  forall funval_equals fuel e en,
    interp funval_equals fuel e (Some en) <> Throw NullDereference.
Proof.
  intros fe. induction fuel as [|f IH]; intros e en; [discriminate|].
  destruct e; cbn [interp or_empty];
    try discriminate;
    try apply lookup_not_null;
    repeat (apply bind_not_null; [apply IH | intros ?]);
    try apply IH; try discriminate.
  - destruct a as [x|x|x b en']; destruct a0 as [y|y|y b' en''];
      discriminate.
  - destruct a as [x|x|x b en']; destruct a0 as [y|y|y b' en''];
      discriminate.
  - destruct a as [x|[|]|x b en']; apply IH.
  - destruct a as [x|x|x b en']; cbn [call]; try discriminate. apply IH.
Qed.

(** X17: a null dereference can only come from evaluating a bare variable
    with no environment supplied: whatever the depth, no evaluation under
    an environment, and no evaluation of any other kind of expression with
    or without one, ends in it; and for every expression that is not a
    bare variable, supplying no environment and supplying the empty one
    give the same outcome. *)
Theorem null_dereference_only_bare_variable :
  forall funval_equals fuel e env,
    (interp funval_equals fuel e env = Throw NullDereference ->
     env = None /\ is_VarExpr e = true)
    /\ (is_VarExpr e = false ->
        interp funval_equals fuel e None
        = interp funval_equals fuel e (Some EmptyEnv)).
Proof.
  intros fe fuel e env.
  assert (Heq : is_VarExpr e = false ->
                interp fe fuel e None = interp fe fuel e (Some EmptyEnv)).
  { intros Hv. destruct fuel as [|f]; [reflexivity|].
    destruct e; try reflexivity. discriminate. }
  split; [|exact Heq].
  intros H. destruct env as [en|].
  - exfalso. exact (interp_env_not_null fe fuel e en H).
  - split; [reflexivity|].
    destruct (is_VarExpr e) eqn:Hv; [reflexivity|].
    exfalso. rewrite (Heq eq_refl) in H.
    exact (interp_env_not_null fe fuel e EmptyEnv H).
Qed.

(** ** Reading a line from standard input *)

Lemma getline_line :
  forall line cin,
    forallb (fun c => negb (Ascii.eqb c newline)) line = true ->
    getline (line ++ newline :: cin) = (line, cin).
Proof.
  induction line as [|c line IH]; intros cin H; simpl.
  - reflexivity.
  - simpl in H. apply andb_prop in H as [Hc Hl].
    apply negb_true_iff in Hc. rewrite Hc, (IH cin Hl). reflexivity.
Qed.

(** X18: [parse_input] reads one line, echoes it after "input: ", and
    returns the first expression of the line without looking at what
    follows it: whatever is left of the line after that expression, the
    expression is returned, the echo is written, and the rest of the
    input stays unread. *)
Theorem parse_input_first_expression :
  forall line cin cout e rest,
    forallb (fun c => negb (Ascii.eqb c newline)) line = true ->
    parses_expr line e rest ->
    parse_input (line ++ newline :: cin) cout
    = (Ok e, cin, cout ++ str "input: " ++ line ++ [newline]).
Proof.
  intros line cin cout e rest Hl [f Hf]. unfold parse_input.
  rewrite (getline_line line cin Hl).
  rewrite (parse_expr_at_depth f line Hf ltac:(discriminate)).
  reflexivity.
Qed.

Lemma parse_input_first_expression_witness :
  (forallb (fun c => negb (Ascii.eqb c newline)) (str "1 + 2 ) 3") = true
   /\ parses_expr (str "1 + 2 ) 3") (AddExpr (NumExpr 1) (NumExpr 2))
        (str ") 3"))
  /\ parse_input (str "1 + 2 ) 3" ++ newline :: str "x") []
     = (Ok (AddExpr (NumExpr 1) (NumExpr 2)), str "x",
        [] ++ str "input: " ++ str "1 + 2 ) 3" ++ [newline]).
Proof.
  assert (H1 : forallb (fun c => negb (Ascii.eqb c newline)) (str "1 + 2 ) 3")
               = true) by reflexivity.
  assert (H2 : parses_expr (str "1 + 2 ) 3") (AddExpr (NumExpr 1) (NumExpr 2))
                 (str ") 3")).
  { exists 6%nat. vm_compute. reflexivity. }
  split; [exact (conj H1 H2)|].
  exact (@parse_input_first_expression _ (str "x") [] _ _ H1 H2).
Defined.

(** ** Where the round trips hold *)

(** X19: the round trips hold on the parseable expressions and on no
    others: parsing the canonical rendering of an expression, or its
    pretty rendering, gives the expression back exactly when the
    expression is one the parser can build. *)
Theorem roundtrip_exactly_parseable :
  forall e,
    (parse_str (to_string e) = Ok e <-> parseable e)
    /\ (parse_str (to_pretty_string e) = Ok e <-> parseable e).
Proof.
  intros e. split; split.
  - apply parse_str_parseable.
  - apply parse_str_to_string.
  - apply parse_str_parseable.
  - apply parse_str_to_pretty_string.
Qed.

(** ** White space at the end of the input *)

Lemma isspace_other :
  forall c, isspace c = true -> isdigit c = false /\ isalpha c = false.
Proof.
  intros [[] [] [] [] [] [] [] []] H; vm_compute in H; try discriminate;
    split; reflexivity.
Qed.

Lemma isspace_neq :
  forall w c, isspace w = true -> isspace c = false -> Ascii.eqb w c = false.
Proof.
  intros w c Hw Hc. destruct (Ascii.eqb w c) eqn:E; [|reflexivity].
  apply Ascii.eqb_eq in E. congruence.
Qed.

Lemma skip_whitespace_all :
  forall ws, forallb isspace ws = true -> skip_whitespace ws = [].
Proof.
  intros ws H. rewrite <- (app_nil_r ws). apply (skip_whitespace_app ws [] H).
Qed.

Lemma ws_extended_nil : ws_extended [] [].
Proof. exists []. split; reflexivity. Qed.

Lemma ws_extended_cons :
  forall c a b, ws_extended a b -> ws_extended (c :: a) (c :: b).
Proof. intros c a b [ws [H ->]]. exists ws. split; [exact H | reflexivity]. Qed.

Lemma skip_ext :
  forall a b,
    ws_extended a b ->
    (skip_whitespace a = [] /\ skip_whitespace b = [])
    \/ (exists c r r',
          skip_whitespace a = c :: r /\ skip_whitespace b = c :: r'
          /\ isspace c = false /\ ws_extended r r').
Proof.
  intros a b [ws [Hws ->]]. induction a as [|c a IH]; simpl.
  - left. split; [reflexivity | apply skip_whitespace_all, Hws].
  - destruct (isspace c) eqn:E; [exact IH|].
    right. exists c, a, (a ++ ws). repeat split; try assumption.
    exists ws. split; [exact Hws | reflexivity].
Qed.

Lemma ext_skip :
  forall a b,
    ws_extended a b ->
    ws_extended (skip_whitespace a) (skip_whitespace b).
Proof.
  intros a b H.
  destruct (skip_ext H) as [[Ha Hb] | [c [r [r' [Ha [Hb [_ Hr]]]]]]];
    rewrite Ha, Hb; [apply ws_extended_nil | apply ws_extended_cons, Hr].
Qed.

Lemma ext_peek :
  forall a b,
    ws_extended a b ->
    isdigit_i (peek b) = isdigit_i (peek a)
    /\ isalpha_i (peek b) = isalpha_i (peek a)
    /\ forall c, isspace c = false -> is_char (peek b) c = is_char (peek a) c.
Proof.
  intros a b [ws [Hws ->]]. destruct a as [|x a]; [|repeat split].
  destruct ws as [|w ws]; [repeat split|].
  simpl in Hws. apply andb_prop in Hws as [Hw _].
  destruct (isspace_other w Hw) as [Hd Ha].
  cbn [app peek hd_error isdigit_i isalpha_i is_char].
  repeat split; try assumption.
  intros c Hc. apply isspace_neq; assumption.
Qed.

Lemma alike_bind :
  forall (A B : Type) (RA : A -> A -> Prop) (RB : B -> B -> Prop)
         (m1 m2 : result string A) (k1 k2 : A -> result string B),
    alike RA m1 m2 ->
    (forall x y, RA x y -> alike RB (k1 x) (k2 y)) ->
    alike RB (bind m1 k1) (bind m2 k2).
Proof.
  intros A B RA RB [x|msg|] m2 k1 k2 H Hk; cbn [alike bind] in *.
  - destruct H as [y [-> Hxy]]. cbn [bind]. apply Hk, Hxy.
  - subst m2. reflexivity.
  - subst m2. reflexivity.
Qed.

Lemma ext_consume :
  forall c a b,
    isspace c = false -> ws_extended a b ->
    alike ws_extended (consume a (Some c)) (consume b (Some c)).
Proof.
  intros c a b Hc [ws [Hws ->]]. destruct a as [|x a]; simpl.
  - destruct ws as [|w ws]; [reflexivity|]. simpl.
    simpl in Hws. apply andb_prop in Hws as [Hw _].
    rewrite (isspace_neq w c Hw Hc). reflexivity.
  - destruct (Ascii.eqb x c); cbn [alike]; [|reflexivity].
    exists (a ++ ws). split; [reflexivity|].
    exists ws. split; [exact Hws | reflexivity].
Qed.

Lemma ext_consume_word :
  forall w a b,
    forallb (fun c => negb (isspace c)) w = true -> ws_extended a b ->
    alike ws_extended (consume_word a w) (consume_word b w).
Proof.
  induction w as [|c w IH]; intros a b Hw H; simpl.
  - exists b. split; [reflexivity | exact H].
  - simpl in Hw. apply andb_prop in Hw as [Hc Hw].
    apply negb_true_iff in Hc.
    destruct H as [ws [Hws ->]]. destruct a as [|x a]; simpl.
    + destruct ws as [|s ws]; [reflexivity|].
      simpl in Hws. apply andb_prop in Hws as [Hs _].
      rewrite (isspace_neq s c Hs Hc). reflexivity.
    + destruct (Ascii.eqb x c); [|reflexivity].
      apply IH; [exact Hw|]. exists ws. split; [exact Hws | reflexivity].
Qed.

Lemma ext_parse_num_loop :
  forall a b n,
    ws_extended a b ->
    exists v a1 b1,
      parse_num_loop n a = (v, a1) /\ parse_num_loop n b = (v, b1)
      /\ ws_extended a1 b1.
Proof.
  intros a b n [ws [Hws ->]]. revert n.
  induction a as [|c a IH]; intros n.
  - exists n, [], ws. split; [reflexivity|]. split.
    + destruct ws as [|w ws]; [reflexivity|]. simpl.
      simpl in Hws. apply andb_prop in Hws as [Hw _].
      destruct (isspace_other w Hw) as [Hd _]. rewrite Hd. reflexivity.
    + exists ws. split; [exact Hws | reflexivity].
  - simpl. destruct (isdigit c); [apply IH|].
    exists n, (c :: a), (c :: a ++ ws). repeat split.
    exists ws. split; [exact Hws | reflexivity].
Qed.

Lemma ext_parse_var :
  forall a b,
    ws_extended a b ->
    exists e a1 b1,
      parse_var a = (e, a1) /\ parse_var b = (e, b1) /\ ws_extended a1 b1.
Proof.
  intros a b [ws [Hws ->]].
  assert (H : exists s a1 b1,
             parse_var_loop a = (s, a1) /\ parse_var_loop (a ++ ws) = (s, b1)
             /\ ws_extended a1 b1).
  { induction a as [|c a [s [a1 [b1 [E1 [E2 Hr]]]]]].
    - exists [], [], ws. split; [reflexivity|]. split.
      + destruct ws as [|w ws]; [reflexivity|]. simpl.
        simpl in Hws. apply andb_prop in Hws as [Hw _].
        destruct (isspace_other w Hw) as [_ Ha]. rewrite Ha. reflexivity.
      + exists ws. split; [exact Hws | reflexivity].
    - simpl. destruct (isalpha c).
      + rewrite E1, E2. exists (c :: s), a1, b1. repeat split. exact Hr.
      + exists [], (c :: a), (c :: a ++ ws). repeat split.
        exists ws. split; [exact Hws | reflexivity]. }
  destruct H as [s [a1 [b1 [E1 [E2 Hr]]]]].
  exists (VarExpr s), a1, b1. unfold parse_var. rewrite E1, E2.
  repeat split. exact Hr.
Qed.

Lemma ext_parse_num : blind_to_trailing parse_num.
Proof.
  intros a b H. unfold parse_num.
  destruct (ext_peek H) as [_ [_ Hc]].
  rewrite (Hc "-"%char eq_refl).
  destruct (is_char (peek a) "-").
  - apply alike_bind with (RA := ws_extended);
      [apply ext_consume; [reflexivity | exact H]|].
    intros a1 b1 H1. destruct (ext_peek H1) as [Hd _]. rewrite Hd.
    destruct (negb (isdigit_i (peek a1))); [reflexivity|].
    destruct (ext_parse_num_loop 0 H1) as [v [a2 [b2 [E1 [E2 H2]]]]].
    rewrite E1, E2. eexists. split; [reflexivity|]. split; [reflexivity|].
    exact H2.
  - destruct (ext_parse_num_loop 0 H) as [v [a2 [b2 [E1 [E2 H2]]]]].
    rewrite E1, E2. eexists. split; [reflexivity|]. split; [reflexivity|].
    exact H2.
Qed.

Ltac same_parse_intros e a b H :=
  let e' := fresh "e" in
  let He := fresh "He" in
  intros [e a] [e' b] [He H]; cbn [fst snd] in He, H; subst e';
  cbv beta iota zeta.

Lemma ext_parse_let_with :
  forall p, blind_to_trailing p -> blind_to_trailing (parse_let_with p).
Proof.
  intros p Hp a b H. unfold parse_let_with.
  apply alike_bind with (RA := ws_extended);
    [apply ext_consume_word; [reflexivity | apply ext_skip, H]|].
  intros a1 b1 H1. cbv zeta.
  destruct (ext_parse_var (ext_skip H1)) as [v [a2 [b2 [E1 [E2 H2]]]]].
  rewrite E1, E2.
  apply alike_bind with (RA := ws_extended);
    [apply ext_consume; [reflexivity | apply ext_skip, H2]|].
  intros a3 b3 H3.
  apply alike_bind with (RA := same_parse); [apply Hp, ext_skip, H3|].
  same_parse_intros rhs a4 b4 H4.
  apply alike_bind with (RA := ws_extended);
    [apply ext_consume_word; [reflexivity | apply ext_skip, H4]|].
  intros a5 b5 H5.
  apply alike_bind with (RA := same_parse); [apply Hp, ext_skip, H5|].
  same_parse_intros body a6 b6 H6.
  eexists. split; [reflexivity|]. split; [reflexivity | exact H6].
Qed.

Lemma ext_parse :
  forall fuel,
    blind_to_trailing (parse_expr fuel)
    /\ blind_to_trailing (parse_addend fuel)
    /\ blind_to_trailing (parse_multicand fuel).
Proof.
  induction fuel as [|f [IHe [IHa IHm]]];
    [repeat split; intros a b H; reflexivity|].
  split; [|split]; intros a b H.
  - rewrite !parse_expr_S.
    apply alike_bind with (RA := same_parse); [apply IHa, H|].
    same_parse_intros e a1 b1 H1.
    destruct (skip_ext H1) as [[Ea Eb] | [c [r [r' [Ea [Eb [Hc Hr]]]]]]];
      rewrite Ea, Eb.
    + eexists. split; [reflexivity|]. split; [reflexivity|].
      apply ws_extended_nil.
    + cbn [peek hd_error is_char consume].
      destruct (Ascii.eqb c "+"); cbn [bind].
      * apply alike_bind with (RA := same_parse); [apply IHe, Hr|].
        same_parse_intros rhs a2 b2 H2.
        eexists. split; [reflexivity|]. split; [reflexivity | exact H2].
      * eexists. split; [reflexivity|]. split; [reflexivity|].
        apply ws_extended_cons, Hr.
  - rewrite !parse_addend_S.
    apply alike_bind with (RA := same_parse); [apply IHm, H|].
    same_parse_intros e a1 b1 H1.
    destruct (skip_ext H1) as [[Ea Eb] | [c [r [r' [Ea [Eb [Hc Hr]]]]]]];
      rewrite Ea, Eb.
    + eexists. split; [reflexivity|]. split; [reflexivity|].
      apply ws_extended_nil.
    + cbn [peek hd_error is_char consume].
      destruct (Ascii.eqb c "*"); cbn [bind].
      * apply alike_bind with (RA := same_parse);
          [apply IHa, ext_skip, Hr|].
        same_parse_intros rhs a2 b2 H2.
        eexists. split; [reflexivity|]. split; [reflexivity | exact H2].
      * eexists. split; [reflexivity|]. split; [reflexivity|].
        apply ws_extended_cons, Hr.
  - rewrite !parse_multicand_S. cbv zeta.
    destruct (skip_ext H) as [[Ea Eb] | [c [r [r' [Ea [Eb [Hc Hr]]]]]]];
      rewrite Ea, Eb; [reflexivity|].
    cbn [peek hd_error is_char isdigit_i isalpha_i].
    destruct (Ascii.eqb c "-" || isdigit c).
    { apply ext_parse_num, ws_extended_cons, Hr. }
    destruct (Ascii.eqb c "(") eqn:Ep.
    { cbn [consume]. rewrite Ep. cbn [bind].
      apply alike_bind with (RA := same_parse); [apply IHe, Hr|].
      same_parse_intros e a2 b2 H2.
      destruct (skip_ext H2) as [[Ea2 Eb2] | [d [s [s' [Ea2 [Eb2 [Hd Hs]]]]]]];
        rewrite Ea2, Eb2; [reflexivity|].
      destruct (Ascii.eqb d ")"); [|reflexivity].
      eexists. split; [reflexivity|]. split; [reflexivity | exact Hs]. }
    destruct (isalpha c).
    { destruct (ext_parse_var (ws_extended_cons c Hr))
        as [v [a2 [b2 [E1 [E2 H2]]]]].
      rewrite E1, E2. eexists. split; [reflexivity|].
      split; [reflexivity | exact H2]. }
    destruct (Ascii.eqb c "_").
    { apply ext_parse_let_with; [exact IHe | apply ws_extended_cons, Hr]. }
    rewrite !consume_head. reflexivity.
Qed.

(** X20: white space at the end of the input changes nothing either:
    [parse_str] returns the same tree, or throws the same error, with and
    without it. *)
Theorem parse_str_trailing_whitespace :
  forall s ws,
    forallb isspace ws = true -> parse_str (s ++ ws) = parse_str s.
Proof.
  intros s ws Hws. unfold parse_str, parse.
  assert (Hle : (parse_depth s <= parse_depth (s ++ ws))%nat)
    by (unfold parse_depth; rewrite length_app; lia).
  rewrite <- (proj1 (parse_mono Hle) s _ eq_refl (parse_expr_total s)).
  assert (H : ws_extended s (s ++ ws)).
  { exists ws. split; [exact Hws | reflexivity]. }
  pose proof (proj1 (ext_parse (parse_depth (s ++ ws))) s (s ++ ws) H) as HA.
  destruct (parse_expr (parse_depth (s ++ ws)) s) as [[e a1]|msg|];
    cbn [alike] in HA.
  - destruct HA as [[e' b1] [-> [He HR]]]. cbn [fst snd] in He, HR. subst e'.
    cbn [bind].
    destruct (skip_ext HR) as [[Ea Eb] | [c [r [r' [Ea [Eb _]]]]]];
      rewrite Ea, Eb; reflexivity.
  - rewrite HA. reflexivity.
  - rewrite HA. reflexivity.
Qed.

Lemma parse_str_trailing_whitespace_witness :
  forallb isspace [" "%char; newline] = true
  /\ parse_str (str "_let x = 1 _in x" ++ [" "%char; newline])
     = parse_str (str "_let x = 1 _in x").
Proof.
  assert (H : forallb isspace [" "%char; newline] = true) by reflexivity.
  split; [exact H
         | exact (parse_str_trailing_whitespace (str "_let x = 1 _in x") _ H)].
Defined.
